(** * RentRescue: the contract analyzer (src/lib/contractAnalyzer.ts)

    A shallow embedding of [callGeminiAPI] and [analyzeContract].

    Conventions of the embedding.
    - A JavaScript string is a Rocq [string]; every [ascii] stands for one
      UTF-16 code unit below 256, so [String.length] is [.length].
    - A value produced by [JSON.parse] (or read off such a value) is a
      [JsValue]; numbers are the integer-valued ones, carried as [Z].
    - [await] is sequential composition: the code never runs two promises
      side by side.  The host ([fetch], [JSON.parse], [JSON.stringify], the
      build-time key) is a Section variable; the network is a state that
      [fetch] reads and advances, and every request is appended to a log. *)

From Stdlib Require Import ZArith List String Ascii Bool Lia DecimalString.
Import ListNotations.
Open Scope string_scope.
Open Scope Z_scope.

(** ** JavaScript values and errors *)

#[warnings="-register-all"]
Inductive JsValue : Type :=
| JUndefined
| JNull
| JBool (b : bool)
| JNum (n : Z)
| JStr (s : string)
| JArr (items : list JsValue)
| JObj (fields : list (string * JsValue)).

(** Instances of [Error].  The messages of errors raised by the engine are
    engine specific and are not modelled. *)
Inductive JsError : Type :=
| Error (message : string)
| TypeError
| SyntaxError.

(** Anything a [throw] or a rejected promise can carry: an [Error]
    instance, or another value, kept as its [String(...)] rendering. *)
Inductive Thrown : Type :=
| ThrowErr (e : JsError)
| ThrowVal (rendering : string).

Definition Result (A : Type) : Type := (Thrown + A)%type.

Definition Ok {A : Type} (a : A) : Result A := inr a.
Definition Throw {A : Type} (t : Thrown) : Result A := inl t.
Definition throwTypeError {A : Type} : Result A := Throw (ThrowErr TypeError).

Definition rbind {A B : Type} (r : Result A) (k : A -> Result B) : Result B :=
  match r with
  | inl t => inl t
  | inr a => k a
  end.

Declare Scope result_scope.
Delimit Scope result_scope with result.
Notation "'let?' x ':=' r 'in' k" := (rbind r (fun x => k))
  (at level 10, x name, r at level 100, k at level 200) : result_scope.
Open Scope result_scope.

(** ** Property access *)

Fixpoint lookup (k : string) (fs : list (string * JsValue)) : JsValue :=
  match fs with
  | [] => JUndefined
  | (k', v) :: rest => if String.eqb k k' then v else lookup k rest
  end.

(** [o[k] = v] on an ordinary object: an existing key keeps its place. *)
Fixpoint set_prop (k : string) (v : JsValue) (fs : list (string * JsValue))
  : list (string * JsValue) :=
  match fs with
  | [] => [(k, v)]
  | (k', v') :: rest =>
      if String.eqb k k' then (k', v) :: rest else (k', v') :: set_prop k v rest
  end.

(** [v.k] for the data keys the program reads (none of them is [length] or
    the name of a prototype member): reading a property of [undefined] or
    [null] throws a TypeError, a missing property is [undefined]. *)
Definition get_prop (v : JsValue) (k : string) : Result JsValue :=
  match v with
  | JUndefined | JNull => throwTypeError
  | JObj fs => Ok (lookup k fs)
  | JBool _ | JNum _ | JStr _ | JArr _ => Ok JUndefined
  end.

(** [v[0]]. *)
Definition get_index0 (v : JsValue) : Result JsValue :=
  match v with
  | JUndefined | JNull => throwTypeError
  | JArr items => Ok (nth 0 items JUndefined)
  | JStr (String c _) => Ok (JStr (String c EmptyString))
  | JStr EmptyString => Ok JUndefined
  | JObj fs => Ok (lookup "0" fs)
  | JBool _ | JNum _ => Ok JUndefined
  end.

(** [!!v]. *)
Definition truthy (v : JsValue) : bool :=
  match v with
  | JUndefined | JNull => false
  | JBool b => b
  | JNum n => negb (n =? 0)
  | JStr s => negb (String.eqb s EmptyString)
  | JArr _ | JObj _ => true
  end.

(** ** Strings *)

Definition js_length (s : string) : Z := Z.of_nat (String.length s).

Fixpoint take (n : nat) (s : string) : string :=
  match n, s with
  | S n', String c rest => String c (take n' rest)
  | _, _ => EmptyString
  end.

Fixpoint drop (n : nat) (s : string) : string :=
  match n, s with
  | S n', String _ rest => drop n' rest
  | _, _ => s
  end.

(** [s.substring(a, b)]: both indices are clamped into [0 .. s.length] and
    swapped when [a > b]. *)
Definition js_substring (s : string) (a b : Z) : string :=
  let len := js_length s in
  let a' := Z.min (Z.max a 0) len in
  let b' := Z.min (Z.max b 0) len in
  let from := Z.min a' b' in
  let to := Z.max a' b' in
  take (Z.to_nat (to - from)) (drop (Z.to_nat from) s).

(** White space and line terminators among the code units below 256. *)
Definition is_space (c : ascii) : bool :=
  let n := nat_of_ascii c in
  ((9 <=? n) && (n <=? 13) || (n =? 32) || (n =? 160))%nat.

Fixpoint trimStart (s : string) : string :=
  match s with
  | String c rest => if is_space c then trimStart rest else s
  | EmptyString => EmptyString
  end.

(** Drops the trailing white space: a character stays when it is not white
    space or when something stays after it. *)
Fixpoint trimEnd (s : string) : string :=
  match s with
  | EmptyString => EmptyString
  | String c rest =>
      match trimEnd rest with
      | EmptyString => if is_space c then EmptyString else String c EmptyString
      | kept => String c kept
      end
  end.

Definition trim (s : string) : string := trimEnd (trimStart s).

(** [v.trim()]. *)
Definition call_trim (v : JsValue) : Result string :=
  match v with
  | JStr s => Ok (trim s)
  | _ => throwTypeError
  end.

(** ** [responseText.match(/\{[\s\S]*\}/)]

    The matcher tries the start positions from the left.  At a start the
    first character has to be an opening brace; [[\s\S]*] is greedy, so the
    rest runs to the last closing brace. *)

Definition open_brace : ascii := "{"%char.
Definition close_brace : ascii := "}"%char.

(** The longest prefix of [s] that ends in a closing brace. *)
Fixpoint greedy_to_close (s : string) : option string :=
  match s with
  | EmptyString => None
  | String c rest =>
      match greedy_to_close rest with
      | Some m => Some (String c m)
      | None => if Ascii.eqb c close_brace then Some (String c EmptyString) else None
      end
  end.

Fixpoint match_braces (s : string) : option string :=
  match s with
  | EmptyString => None
  | String c rest =>
      if Ascii.eqb c open_brace then
        match greedy_to_close rest with
        | Some m => Some (String c m)
        | None => match_braces rest
        end
      else match_braces rest
  end.

(** Whether the character [c] occurs in [s]. *)
Fixpoint has_char (c : ascii) (s : string) : bool :=
  match s with
  | EmptyString => false
  | String c' rest => Ascii.eqb c' c || has_char c rest
  end.

(** Lines 156-160: [jsonText]. *)
Definition jsonText (responseText : string) : string :=
  match match_braces responseText with
  | Some m => m
  | None => responseText
  end.

(** ** The clause taxonomy (lines 21-31) *)

Inductive Category : Type :=
| security_deposit | rent | termination | maintenance | privacy
| pets | subletting | utilities | other.

Inductive Severity : Type := low | medium | high.

Definition categories : list Category :=
  [security_deposit; rent; termination; maintenance; privacy;
   pets; subletting; utilities; other].

Definition severities : list Severity := [low; medium; high].

Definition category_name (c : Category) : string :=
  match c with
  | security_deposit => "security_deposit"
  | rent => "rent"
  | termination => "termination"
  | maintenance => "maintenance"
  | privacy => "privacy"
  | pets => "pets"
  | subletting => "subletting"
  | utilities => "utilities"
  | other => "other"
  end.

Definition severity_name (s : Severity) : string :=
  match s with
  | low => "low"
  | medium => "medium"
  | high => "high"
  end.

(** Membership of a run-time value in [ClausePattern['category']] and in
    [ClausePattern['severity']]. *)
Definition is_category (v : JsValue) : bool :=
  match v with
  | JStr s => existsb (fun c => String.eqb s (category_name c)) categories
  | _ => false
  end.

Definition is_severity (v : JsValue) : bool :=
  match v with
  | JStr s => existsb (fun c => String.eqb s (severity_name c)) severities
  | _ => false
  end.

(** ** The result model (lines 1-19), as the objects are at run time *)

Record FlaggedClause : Type := mkFlaggedClause {
  clause : JsValue;
  matchedText : JsValue;
  position : JsValue
}.

Record AnalysisResult : Type := mkAnalysisResult {
  summary : JsValue;
  keyDetails : JsValue;
  flaggedClauses : list FlaggedClause;
  overallRiskScore : JsValue;
  recommendations : JsValue
}.

(** ** Conversion of the service's answer (lines 187-204) *)

Definition index_key (i : nat) : string := NilZero.string_of_uint (Nat.to_uint i).

Fixpoint indexed (i : nat) (l : list JsValue) : list (string * JsValue) :=
  match l with
  | [] => []
  | v :: rest => (index_key i, v) :: indexed (S i) rest
  end.

(** The own enumerable properties that [{...v}] copies. *)
Definition own_props (v : JsValue) : list (string * JsValue) :=
  match v with
  | JObj fs => fs
  | JArr items => indexed 0 items
  | JStr s =>
      indexed 0 (map (fun c => JStr (String c EmptyString)) (list_ascii_of_string s))
  | JUndefined | JNull | JBool _ | JNum _ => []
  end.

(** [Array.prototype.map]: the callback runs on the elements in order and
    the first exception ends the call. *)
Fixpoint map_result {A B : Type} (f : A -> Result B) (l : list A) : Result (list B) :=
  match l with
  | [] => Ok []
  | a :: rest =>
      let? b := f a in
      let? bs := map_result f rest in
      Ok (b :: bs)
  end.

(** [v.map(f)]: only an array has a [map]. *)
Definition call_map {B : Type} (v : JsValue) (f : JsValue -> Result B) : Result (list B) :=
  match v with
  | JArr items => map_result f items
  | _ => throwTypeError
  end.

(** The relative index of [slice], resolved against the length. *)
Definition slice_bound (len i : Z) : Z :=
  if i <? 0 then Z.max (len + i) 0 else Z.min i len.

(** [v.slice(a, b)]: arrays and strings have it. *)
Definition call_slice (v : JsValue) (a b : Z) : Result JsValue :=
  match v with
  | JArr items =>
      let len := Z.of_nat (List.length items) in
      let k := slice_bound len a in
      let final := slice_bound len b in
      Ok (JArr (firstn (Z.to_nat (Z.max (final - k) 0)) (skipn (Z.to_nat k) items)))
  | JStr s =>
      let len := js_length s in
      let k := slice_bound len a in
      let final := slice_bound len b in
      Ok (JStr (take (Z.to_nat (Z.max (final - k) 0)) (drop (Z.to_nat k) s)))
  | _ => throwTypeError
  end.

(** The callback of lines 188-196. *)
Definition toFlaggedClause (fc : JsValue) : Result FlaggedClause :=
  let? c := get_prop fc "clause" in
  let spread := own_props c in
  let with_keywords := set_prop "keywords" (JArr []) spread in
  let? category := get_prop c "category" in
  let? matched := get_prop fc "matchedText" in
  let? pos := get_prop fc "position" in
  Ok {| clause := JObj (set_prop "category" category with_keywords);
        matchedText := matched;
        position := pos |}.

Definition toAnalysisResult (geminiResponse : JsValue) : Result AnalysisResult :=
  let? raw_clauses := get_prop geminiResponse "flaggedClauses" in
  let? flagged := call_map raw_clauses toFlaggedClause in
  let? summary_v := get_prop geminiResponse "summary" in
  let? details := get_prop geminiResponse "keyDetails" in
  let? score := get_prop geminiResponse "overallRiskScore" in
  let? raw_recs := get_prop geminiResponse "recommendations" in
  let? recs := call_slice raw_recs 0 5 in
  Ok {| summary := summary_v;
        keyDetails := details;
        flaggedClauses := flagged;
        overallRiskScore := score;
        recommendations := recs |}.

(** ** Truncation (lines 180-183) *)

Definition maxLength : Z := 50000.

Definition newline : string := String (ascii_of_nat 10) EmptyString.

Definition truncation_marker : string :=
  newline ++ newline ++ "[... contract truncated due to length ...]".

Definition truncatedText (text : string) : string :=
  if js_length text >? maxLength
  then js_substring text 0 maxLength ++ truncation_marker
  else text.

(** ** The request (lines 65-138) *)

Definition double_quote : ascii := ascii_of_nat 34.

(** The template below is written with a hash sign wherever the source has
    a double quote; [quoted] puts the double quotes back. *)
Fixpoint quoted (s : string) : string :=
  match s with
  | EmptyString => EmptyString
  | String c rest =>
      String (if Ascii.eqb c "#"%char then double_quote else c) (quoted rest)
  end.

Definition prompt_head : string := quoted
"Analyze this British Columbia residential tenancy agreement and return a JSON response with the following structure:

{
  #summary#: #A brief summary of the contract (2-3 sentences)#,
  #keyDetails#: [
    {#label#: #Monthly Rent#, #value#: #extracted value or 'N/A'#, #category#: #rent#},
    {#label#: #Security Deposit#, #value#: #extracted value or 'N/A'#, #category#: #security_deposit#},
    {#label#: #Lease Start Date#, #value#: #extracted value or 'N/A'#, #category#: #termination#},
    {#label#: #Lease End Date#, #value#: #extracted value or 'N/A'#, #category#: #termination#},
    {#label#: #Property Address#, #value#: #extracted value or 'N/A'#, #category#: #other#},
    {#label#: #Landlord Name#, #value#: #extracted value or 'N/A'#, #category#: #other#},
    {#label#: #Notice Period#, #value#: #extracted value or 'N/A'#, #category#: #termination#}
  ],
  #flaggedClauses#: [
    {
      #clause#: {
        #id#: #unique-id#,
        #category#: #security_deposit|rent|termination|maintenance|privacy|pets|subletting|utilities|other#,
        #name#: #Clause name#,
        #description#: #Brief description#,
        #isMalicious#: true/false,
        #severity#: #low|medium|high#,
        #legalReference#: #BC RTA Section reference if applicable#,
        #explanation#: #Why this clause is problematic or noteworthy#
      },
      #matchedText#: #Exact text excerpt from the contract (max 300 chars)#,
      #position#: 0
    }
  ],
  #overallRiskScore#: 0-100,
  #recommendations#: [#recommendation 1#, #recommendation 2#, #recommendation 3#, #recommendation 4#, #recommendation 5#]
}

Focus on identifying:
1. Clauses that violate BC Residential Tenancy Act (illegal deposits, prohibited terms, etc.)
2. Potentially problematic clauses that may be unenforceable
3. Important details like rent, deposits, dates, notice periods
4. Provide specific BC tenancy law references where applicable

Contract text:
".

Definition prompt_tail : string := quoted
"

Return ONLY valid JSON, no other text.".

Definition prompt (contractText : string) : string :=
  prompt_head ++ contractText ++ prompt_tail.

Definition endpoints : list string :=
  ["https://generativelanguage.googleapis.com/v1beta/models/gemini-1.5-flash:generateContent";
   "https://generativelanguage.googleapis.com/v1beta/models/gemini-1.5-pro:generateContent";
   "https://generativelanguage.googleapis.com/v1/models/gemini-1.5-flash:generateContent"].

(** What one call of [fetch] sends.  The body is the prompt wrapped in
    [contents[0].parts[0].text] next to the constant [generationConfig]
    (temperature 0.3, topK 40, topP 0.95, maxOutputTokens 4096); only the
    prompt varies, so the record keeps the prompt. *)
Record Request : Type := mkRequest {
  req_url : string;
  req_method : string;
  req_content_type : string;
  req_text : string
}.

Definition request (endpoint key prompt_text : string) : Request :=
  {| req_url := endpoint ++ "?key=" ++ key;
     req_method := "POST";
     req_content_type := "application/json";
     req_text := prompt_text |}.

(** What the program reads of a [Response]; [json] is the outcome of
    [await response.json()]. *)
Record Response : Type := mkResponse {
  ok : bool;
  status : Z;
  statusText : string;
  json : Result JsValue
}.

Inductive FetchOutcome : Type :=
| Resolves (response : Response)
| Rejects (reason : Thrown).

(** How one turn of the loop over the endpoints ends. *)
Inductive Turn : Type :=
| Return (result : JsValue)
| Continue (lastError : JsError).

(** Line 175, after the turns have left the errors [errs] behind: the last
    of them, or what [lastError] held before, or the error made on the
    spot. *)
Definition thrown_after (lastError : option JsError) (errs : list JsError) : JsError :=
  last errs match lastError with
            | Some e => e
            | None => Error "All Gemini API endpoints failed"
            end.

Definition show_number (n : Z) : string := NilZero.string_of_int (Z.to_int n).

Definition key_missing_message : string :=
  "Gemini API key is not configured. Please set VITE_GEMINI_API_KEY in your environment variables.".

(** ** [callGeminiAPI] and [analyzeContract] over a host *)

Section Host.

(** The network: a state that [fetch] reads and advances. *)
Variable World : Type.
Variable fetch : World -> Request -> FetchOutcome * World.

(** [JSON.parse]: [None] when it throws its SyntaxError. *)
Variable JSON_parse : string -> option JsValue.
Variable JSON_stringify : JsValue -> string.

(** [import.meta.env.VITE_GEMINI_API_KEY]: a string, or [undefined]. *)
Variable GEMINI_API_KEY : option string.

(** The network together with the requests issued so far, oldest first. *)
Record Net : Type := mkNet {
  world : World;
  calls : list Request
}.

(** [await fetch(...)]. *)
Definition do_fetch (rq : Request) (net : Net) : FetchOutcome * Net :=
  let (out, w) := fetch (world net) rq in
  (out, {| world := w; calls := calls net ++ [rq] |}).

(** Lines 141-142: the error recorded for a response that is not ok. *)
Definition api_error (response : Response) : JsError :=
  let errorData :=
    match json response with
    | inr d => d
    | inl _ => JObj []
    end in
  Error ("Gemini API error: " ++ show_number (status response) ++ " "
         ++ statusText response ++ ". " ++ JSON_stringify errorData).

(** Lines 146-163: from [await response.json()] to [return result]. *)
Definition read_response (response : Response) : Result Turn :=
  let? data := json response in
  let? candidates := get_prop data "candidates" in
  if negb (truthy candidates)
  then Ok (Continue (Error "Invalid response format from Gemini API"))
  else
    let? first := get_index0 candidates in
    if negb (truthy first)
    then Ok (Continue (Error "Invalid response format from Gemini API"))
    else
      let? content := get_prop first "content" in
      if negb (truthy content)
      then Ok (Continue (Error "Invalid response format from Gemini API"))
      else
        let? parts := get_prop content "parts" in
        let? part := get_index0 parts in
        let? text := get_prop part "text" in
        let? responseText := call_trim text in
        match JSON_parse (jsonText responseText) with
        | Some result => Ok (Return result)
        | None => Throw (ThrowErr SyntaxError)
        end.

(** Lines 120-163: the body of the [try]. *)
Definition try_body (prompt_text key endpoint : string) (net : Net)
  : Result Turn * Net :=
  let (out, net') := do_fetch (request endpoint key prompt_text) net in
  match out with
  | Rejects reason => (Throw reason, net')
  | Resolves response =>
      if negb (ok response)
      then (Ok (Continue (api_error response)), net')
      else (read_response response, net')
  end.

(** Lines 164-171: the [catch]; every branch ends in [continue]. *)
Definition on_catch (error : Thrown) : JsError :=
  match error with
  | ThrowErr SyntaxError => SyntaxError
  | ThrowErr e => e
  | ThrowVal rendering => Error rendering
  end.

(** One turn of the loop: the [try] with its [catch]. *)
Definition attempt (prompt_text key endpoint : string) (net : Net) : Turn * Net :=
  match try_body prompt_text key endpoint net with
  | (inr turn, net') => (turn, net')
  | (inl error, net') => (Continue (on_catch error), net')
  end.

(** Lines 116-175: the loop and the final [throw]. *)
Fixpoint try_endpoints (prompt_text key : string) (eps : list string)
  (lastError : option JsError) (net : Net) : Result JsValue * Net :=
  match eps with
  | [] =>
      (Throw (ThrowErr match lastError with
                       | Some e => e
                       | None => Error "All Gemini API endpoints failed"
                       end), net)
  | endpoint :: rest =>
      match attempt prompt_text key endpoint net with
      | (Return result, net') => (Ok result, net')
      | (Continue e, net') => try_endpoints prompt_text key rest (Some e) net'
      end
  end.

(** The errors of the turns over [eps] when every one of them ends in
    [continue], with the network they leave; [None] as soon as a turn
    returns. *)
Fixpoint failures (prompt_text key : string) (eps : list string) (net : Net)
  : option (list JsError * Net) :=
  match eps with
  | [] => Some ([], net)
  | endpoint :: rest =>
      match attempt prompt_text key endpoint net with
      | (Continue e, net1) =>
          match failures prompt_text key rest net1 with
          | Some (errs, net2) => Some (e :: errs, net2)
          | None => None
          end
      | (Return _, _) => None
      end
  end.

Definition callGeminiAPI (contractText : string) (net : Net) : Result JsValue * Net :=
  match GEMINI_API_KEY with
  | None | Some EmptyString => (Throw (ThrowErr (Error key_missing_message)), net)
  | Some key => try_endpoints (prompt contractText) key endpoints None net
  end.

Definition analyzeContract (text : string) (net : Net) : Result AnalysisResult * Net :=
  let (geminiResponse, net') := callGeminiAPI (truncatedText text) net in
  (rbind geminiResponse toAnalysisResult, net').

End Host.

Arguments mkNet {World}.
Arguments world {World}.
Arguments calls {World}.
Arguments do_fetch {World}.
Arguments try_body {World}.
Arguments attempt {World}.
Arguments try_endpoints {World}.
Arguments failures {World}.
Arguments callGeminiAPI {World}.
Arguments analyzeContract {World}.

(** ** Sample answers and sample hosts *)

(** The envelope of an answer whose first text part is [text]. *)
Definition envelope (text : string) : JsValue :=
  JObj [("candidates",
         JArr [JObj [("content",
                      JObj [("parts", JArr [JObj [("text", JStr text)]])])]])].

Definition answer (score : JsValue) (recs : list JsValue) : JsValue :=
  JObj [("summary", JStr "A one year lease.");
        ("keyDetails", JArr []);
        ("flaggedClauses", JArr []);
        ("overallRiskScore", score);
        ("recommendations", JArr recs)].

Definition eight_recommendations : list JsValue :=
  map JStr ["r1"; "r2"; "r3"; "r4"; "r5"; "r6"; "r7"; "r8"].

(** An answer with neither [summary] nor [overallRiskScore]. *)
Definition answer_without_summary : JsValue :=
  JObj [("keyDetails", JArr []);
        ("flaggedClauses", JArr []);
        ("recommendations", JArr [JStr "r1"])].

(** An answer whose score is a numeric string. *)
Definition answer_with_string_score : JsValue := answer (JStr "85") [].

(** A flagged clause as the service sends it, with the given category and
    severity. *)
Definition raw_clause (category severity : string) : JsValue :=
  JObj [("clause",
         JObj [("id", JStr "c1");
               ("category", JStr category);
               ("name", JStr "Deposit");
               ("description", JStr "Two months of rent as deposit");
               ("isMalicious", JBool true);
               ("severity", JStr severity);
               ("explanation", JStr "More than half a month of rent")]);
        ("matchedText", JStr "a deposit of two months");
        ("position", JNum 120)].

Definition answer_with_clause (category severity : string) : JsValue :=
  JObj [("summary", JStr "A one year lease.");
        ("keyDetails", JArr []);
        ("flaggedClauses", JArr [raw_clause category severity]);
        ("overallRiskScore", JNum 70);
        ("recommendations", JArr [])].

(** A model answer wrapped in prose, and the object inside it. *)
Definition wrapped_object : string := quoted
"{#summary#: #A one year lease.#, #keyDetails#: [], #flaggedClauses#: [], #overallRiskScore#: 40, #recommendations#: [#r1#]}".

Definition wrapped_answer : string :=
  "Here is the result:" ++ newline ++ wrapped_object ++ newline.

(** A [JSON.parse] that accepts one text. *)
Definition table_parse (s : string) : option JsValue :=
  if String.eqb s wrapped_object then Some (answer (JNum 40) [JStr "r1"]) else None.

Definition plain_stringify (v : JsValue) : string := "{}".

(** A network that counts the calls: the first answers 404, the second
    answers with [wrapped_answer], every later one is refused. *)
Definition failover_fetch (n : nat) (rq : Request) : FetchOutcome * nat :=
  (match n with
   | O => Resolves {| ok := false; status := 404; statusText := "Not Found";
                      json := Throw (ThrowErr SyntaxError) |}
   | S O => Resolves {| ok := true; status := 200; statusText := "OK";
                        json := Ok (envelope wrapped_answer) |}
   | _ => Rejects (ThrowErr TypeError)
   end, S n).

(** A network on which every endpoint fails, each in its own way: a 404,
    then an answer without candidates, then a text that is not JSON. *)
Definition failing_fetch (n : nat) (rq : Request) : FetchOutcome * nat :=
  (match n with
   | O => Resolves {| ok := false; status := 404; statusText := "Not Found";
                      json := Ok (JObj []) |}
   | S O => Resolves {| ok := true; status := 200; statusText := "OK";
                        json := Ok (JObj []) |}
   | _ => Resolves {| ok := true; status := 200; statusText := "OK";
                      json := Ok (envelope "I cannot help with that.") |}
   end, S n).

Definition fresh : Net nat := {| world := O; calls := [] |}.

Definition long_text : string := string_of_list_ascii (repeat "a"%char (Z.to_nat 50001)).

(** ** What the conversion needs of an answer *)

(** An entry of [flaggedClauses] that the callback of lines 188-196 can
    read: [fc.clause.category] throws when [fc] is [null] or when
    [fc.clause] is [undefined] or [null]. *)
Definition usable_clause (fc : JsValue) : bool :=
  match get_prop fc "clause" with
  | inr JUndefined | inr JNull | inl _ => false
  | inr _ => true
  end.

(** The values that have a [slice]. *)
Definition has_slice (v : JsValue) : bool :=
  match v with
  | JArr _ | JStr _ => true
  | _ => false
  end.

Definition accepted (geminiResponse : JsValue) : bool :=
  match geminiResponse with
  | JObj fs =>
      match lookup "flaggedClauses" fs with
      | JArr cl => forallb usable_clause cl && has_slice (lookup "recommendations" fs)
      | _ => false
      end
  | _ => false
  end.

(** The number of entries of an array, of characters of a string. *)
Definition size_of (v : JsValue) : option nat :=
  match v with
  | JArr items => Some (List.length items)
  | JStr s => Some (String.length s)
  | _ => None
  end.

(** ** More sample answers and hosts *)

(** A flagged clause that comes with keywords of its own. *)
Definition raw_clause_with_keywords : JsValue :=
  JObj [("clause",
         JObj [("id", JStr "c2");
               ("keywords", JArr [JStr "deposit"; JStr "refund"]);
               ("category", JStr "security_deposit");
               ("severity", JStr "high")]);
        ("matchedText", JStr "the deposit is not refundable");
        ("position", JNum 7)].

Definition answer_with_keywords : JsValue :=
  JObj [("flaggedClauses", JArr [raw_clause_with_keywords]);
        ("recommendations", JStr "see a lawyer")].

(** A network that answers every call with the same text, and a
    [JSON.parse] that knows the empty object. *)
Definition steady_fetch (text : string) (n : nat) (rq : Request) : FetchOutcome * nat :=
  (Resolves {| ok := true; status := 200; statusText := "OK";
               json := Ok (envelope text) |}, S n).

Definition empty_object_parse (s : string) : option JsValue :=
  if String.eqb s "{}" then Some (JObj []) else None.

(** A network whose answers have no candidates. *)
Definition blocked_fetch (n : nat) (rq : Request) : FetchOutcome * nat :=
  (Resolves {| ok := true; status := 200; statusText := "OK";
               json := Ok (JObj [("candidates", JArr [])]) |}, S n).

(** ** The header (src/components/Header.tsx)

    The component keeps one piece of state, [mobileMenuOpen], and renders
    from it; every click is handled by the render that precedes it. *)

Inductive Icon : Type := IconX | IconMenu.

Inductive HeaderEvent : Type :=
| ClickMenuButton
| ClickDesktopLink (href : string)
| ClickMobileLink (href : string).

(** Line 6: [useState(false)]. *)
Definition initialMenuOpen : bool := false.

(** Line 33. *)
Definition menu_icon (mobileMenuOpen : bool) : Icon :=
  if mobileMenuOpen then IconX else IconMenu.

(** Lines 38-57: the links of the mobile navigation, rendered when the menu
    is open. *)
Definition mobile_links (mobileMenuOpen : bool) : list string :=
  if mobileMenuOpen then ["#upload"; "#how-it-works"] else [].

(** Lines 31, 44 and 51: the state after a click; [None] when the element
    clicked is not in the page. *)
Definition on_click (mobileMenuOpen : bool) (e : HeaderEvent) : option bool :=
  match e with
  | ClickMenuButton => Some (negb mobileMenuOpen)
  | ClickDesktopLink _ => Some mobileMenuOpen
  | ClickMobileLink href =>
      if existsb (String.eqb href) (mobile_links mobileMenuOpen)
      then Some false
      else None
  end.

Fixpoint clicks (mobileMenuOpen : bool) (events : list HeaderEvent) : option bool :=
  match events with
  | [] => Some mobileMenuOpen
  | e :: rest =>
      match on_click mobileMenuOpen e with
      | Some next => clicks next rest
      | None => None
      end
  end.

(** The clicks on the menu button since the last click on a mobile link. *)
Fixpoint presses_since_link (events : list HeaderEvent) : nat :=
  match events with
  | [] => O
  | ClickMenuButton :: rest =>
      if existsb (fun e => match e with ClickMobileLink _ => true | _ => false end) rest
      then presses_since_link rest
      else S (presses_since_link rest)
  | _ :: rest => presses_since_link rest
  end.

(** ** White space at the ends of a text *)

Fixpoint all_space (s : string) : bool :=
  match s with
  | EmptyString => true
  | String c rest => is_space c && all_space rest
  end.

Definition starts_with_space (s : string) : bool :=
  match s with
  | EmptyString => false
  | String c _ => is_space c
  end.

Fixpoint ends_with_space (s : string) : bool :=
  match s with
  | EmptyString => false
  | String c rest =>
      match rest with
      | EmptyString => is_space c
      | String _ _ => ends_with_space rest
      end
  end.

(** ** The extraction as the specification words it

    For comparison with [jsonText]: the first brace-delimited object of a
    text, from its first opening brace to the closing brace that balances
    it. *)

(** The shortest prefix of [s] that closes [depth] + 1 open braces. *)
Fixpoint balanced_prefix (depth : nat) (s : string) : option string :=
  match s with
  | EmptyString => None
  | String c rest =>
      if Ascii.eqb c close_brace then
        match depth with
        | O => Some (String c EmptyString)
        | S d => option_map (String c) (balanced_prefix d rest)
        end
      else if Ascii.eqb c open_brace
      then option_map (String c) (balanced_prefix (S depth) rest)
      else option_map (String c) (balanced_prefix depth rest)
  end.

Fixpoint spec_first_object (s : string) : option string :=
  match s with
  | EmptyString => None
  | String c rest =>
      if Ascii.eqb c open_brace then
        match balanced_prefix O rest with
        | Some m => Some (String c m)
        | None => spec_first_object rest
        end
      else spec_first_object rest
  end.

(** ** The failure of the client as the specification words it

    Line 175 makes one error that stands for the exhaustion of the
    endpoints as such; an outcome of exhaustion of its own, apart from the
    errors of the endpoints, could only be that one. *)

Definition exhaustion_message : string := "All Gemini API endpoints failed".

Definition is_ServiceUnavailable (t : Thrown) : bool :=
  match t with
  | ThrowErr (Error message) => String.eqb message exhaustion_message
  | _ => false
  end.

(** ** Sample texts and hosts for the extraction and the exhaustion *)

(** Two objects in one answer, and the first of them. *)
Definition first_of_two : string := quoted "{#a#: 1}".

Definition two_objects : string := first_of_two ++ " and " ++ quoted "{#b#: 2}".

(** A [JSON.parse] that accepts the first of the two objects. *)
Definition first_object_parse (s : string) : option JsValue :=
  if String.eqb s first_of_two then Some (JObj [("a", JNum 1)]) else None.

(** A [JSON.parse] that accepts the number 42. *)
Definition number_parse (s : string) : option JsValue :=
  if String.eqb s "42" then Some (JNum 42) else None.

(** An answer that is a number between white space. *)
Definition padded_number : string := "  42 " ++ newline.

(** A network on which the first endpoint answers 404, the second answers
    without candidates and the third cannot be reached: its [fetch]
    rejects with a TypeError. *)
Definition unreachable_fetch (n : nat) (rq : Request) : FetchOutcome * nat :=
  (match n with
   | O => Resolves {| ok := false; status := 404; statusText := "Not Found";
                      json := Ok (JObj []) |}
   | S O => Resolves {| ok := true; status := 200; statusText := "OK";
                        json := Ok (JObj []) |}
   | _ => Rejects (ThrowErr TypeError)
   end, S n).

(** * Properties *)

(** ** Strings *)

Lemma length_app (s t : string) :
  String.length (s ++ t) = (String.length s + String.length t)%nat.
Proof.
  induction s as [|c s IH]; simpl; [reflexivity | now rewrite IH].
Qed.

Lemma take_app_drop (n : nat) (s : string) : take n s ++ drop n s = s.
Proof.
  revert s; induction n as [|n IH]; intros [|c s]; simpl; try reflexivity.
  now rewrite IH.
Qed.

Lemma length_take (n : nat) (s : string) :
  (n <= String.length s)%nat -> String.length (take n s) = n.
Proof.
  revert s; induction n as [|n IH]; intros [|c s] Hn; simpl in *; try lia.
  rewrite IH; lia.
Qed.

Lemma js_substring_prefix (s : string) (m : Z) :
  0 <= m <= js_length s -> js_substring s 0 m = take (Z.to_nat m) s.
Proof.
  intros Hm. unfold js_substring.
  replace (Z.min (Z.max 0 0) (js_length s)) with 0 by lia.
  replace (Z.min (Z.max m 0) (js_length s)) with m by lia.
  replace (Z.min 0 m) with 0 by lia.
  replace (Z.max 0 m - 0) with m by lia.
  reflexivity.
Qed.

Lemma truncatedText_short (text : string) :
  js_length text <= maxLength -> truncatedText text = text.
Proof.
  intros Hlen. unfold truncatedText.
  destruct (js_length text >? maxLength) eqn:E; [|reflexivity].
  apply Z.gtb_lt in E. lia.
Qed.

Lemma truncatedText_long (text : string) :
  js_length text > maxLength ->
  truncatedText text = take (Z.to_nat maxLength) text ++ truncation_marker.
Proof.
  intros Hlen. unfold truncatedText.
  destruct (js_length text >? maxLength) eqn:E.
  - rewrite js_substring_prefix; [reflexivity | unfold maxLength in *; lia].
  - rewrite Z.gtb_ltb in E. apply Z.ltb_ge in E. lia.
Qed.

(** ** The brace pattern *)

Lemma has_char_app (c : ascii) (s t : string) :
  has_char c (s ++ t) = has_char c s || has_char c t.
Proof.
  induction s as [|c' s IH]; simpl; [reflexivity|].
  now rewrite IH, orb_assoc.
Qed.

Lemma has_char_head (c : ascii) (s : string) : has_char c (String c s) = true.
Proof. simpl. now rewrite Ascii.eqb_refl. Qed.

Lemma greedy_to_close_none (s : string) :
  greedy_to_close s = None -> has_char close_brace s = false.
Proof.
  induction s as [|c s IH]; simpl; [reflexivity|].
  destruct (greedy_to_close s); [discriminate|].
  destruct (Ascii.eqb c close_brace); [discriminate|].
  intros _. now rewrite IH.
Qed.

Lemma greedy_to_close_some (s m : string) :
  greedy_to_close s = Some m ->
  exists body after,
    s = body ++ String close_brace after /\
    m = body ++ String close_brace EmptyString /\
    has_char close_brace after = false.
Proof.
  revert m; induction s as [|c s IH]; simpl; intros m Hm; [discriminate|].
  destruct (greedy_to_close s) as [m'|] eqn:E.
  - injection Hm as <-.
    destruct (IH m' eq_refl) as (body & after & -> & -> & Hafter).
    exists (String c body), after. now repeat split.
  - destruct (Ascii.eqb c close_brace) eqn:Ec; [|discriminate].
    injection Hm as <-. apply Ascii.eqb_eq in Ec; subst c.
    exists EmptyString, s. repeat split. now apply greedy_to_close_none.
Qed.

Lemma match_braces_some (s m : string) :
  match_braces s = Some m ->
  exists before body after,
    s = before ++ String open_brace (body ++ String close_brace after) /\
    has_char open_brace before = false /\
    has_char close_brace after = false /\
    m = String open_brace (body ++ String close_brace EmptyString).
Proof.
  revert m; induction s as [|c s IH]; simpl; intros m Hm; [discriminate|].
  destruct (Ascii.eqb c open_brace) eqn:Ec.
  - apply Ascii.eqb_eq in Ec; subst c.
    destruct (greedy_to_close s) as [m'|] eqn:E.
    + injection Hm as <-.
      destruct (greedy_to_close_some _ _ E) as (body & after & -> & -> & Hafter).
      exists EmptyString, body, after. now repeat split.
    + destruct (IH m Hm) as (before & body & after & -> & _ & Hafter & ->).
      apply greedy_to_close_none in E.
      rewrite has_char_app in E. cbn [has_char] in E.
      rewrite has_char_app, has_char_head in E.
      now rewrite !orb_true_r in E.
  - destruct (IH m Hm) as (before & body & after & -> & Hbefore & Hafter & ->).
    exists (String c before), body, after. repeat split; trivial.
    simpl. now rewrite Ec.
Qed.

Lemma match_braces_none (s : string) :
  match_braces s = None ->
  forall before body after,
    s <> before ++ String open_brace (body ++ String close_brace after).
Proof.
  induction s as [|c s IH]; simpl; intros Hnone before body after Heq.
  - destruct before; discriminate.
  - destruct before as [|b before]; simpl in Heq; injection Heq as -> ->.
    + rewrite Ascii.eqb_refl in Hnone.
      destruct (greedy_to_close (body ++ String close_brace after)) eqn:E;
        [discriminate|].
      apply greedy_to_close_none in E.
      rewrite has_char_app, has_char_head, orb_true_r in E. discriminate.
    + assert (Hrest : match_braces
                (before ++ String open_brace (body ++ String close_brace after)) = None).
      { destruct (Ascii.eqb b open_brace); [|exact Hnone].
        destruct (greedy_to_close _); [discriminate | exact Hnone]. }
      exact (IH Hrest before body after eq_refl).
Qed.

(** ** Conversion of the service's answer *)

Ltac see_result :=
  unfold rbind, Ok, Throw, throwTypeError in *.

Lemma call_slice_array (items : list JsValue) :
  call_slice (JArr items) 0 5 = Ok (JArr (firstn 5 items)).
Proof.
  unfold call_slice, slice_bound.
  change (0 <? 0) with false. change (5 <? 0) with false. cbv iota.
  set (len := Z.of_nat (List.length items)).
  replace (Z.min 0 len) with 0 by lia. cbn [Z.to_nat skipn].
  destruct (Z.le_gt_cases 5 len) as [Hlen|Hlen].
  - now replace (Z.max (Z.min 5 len - 0) 0) with 5 by lia.
  - replace (Z.max (Z.min 5 len - 0) 0) with len by lia.
    unfold len. rewrite Nat2Z.id, firstn_all.
    do 2 f_equal. symmetry. apply firstn_all2. lia.
Qed.

(** What a successful conversion tells about the answer. *)
Lemma toAnalysisResult_inv (raw : JsValue) (r : AnalysisResult) :
  toAnalysisResult raw = Ok r ->
  exists fs cl,
    raw = JObj fs /\
    lookup "flaggedClauses" fs = JArr cl /\
    map_result toFlaggedClause cl = Ok (flaggedClauses r) /\
    summary r = lookup "summary" fs /\
    keyDetails r = lookup "keyDetails" fs /\
    overallRiskScore r = lookup "overallRiskScore" fs /\
    call_slice (lookup "recommendations" fs) 0 5 = Ok (recommendations r).
Proof.
  unfold toAnalysisResult.
  destruct raw as [| | b | n | s | items | fs]; cbn [get_prop];
    see_result; cbn [call_map]; try discriminate.
  destruct (lookup "flaggedClauses" fs) as [| | b | n | s | cl | fs'] eqn:Ecl;
    cbn [call_map]; see_result; try discriminate.
  destruct (map_result toFlaggedClause cl) as [t | fl] eqn:Efl; [discriminate|].
  destruct (call_slice (lookup "recommendations" fs) 0 5) as [t | recs] eqn:Erecs;
    [discriminate|].
  intros H; injection H as <-. cbn.
  exists fs, cl. repeat split; trivial.
Qed.

(** C9: the normalized recommendations are the first [min 5 n] entries of
    the [n] raw recommendations, in their order; a list of at most five
    entries passes unchanged and nothing is padded. *)
Theorem recommendations_first_five (raw : JsValue) (recs : list JsValue)
    (r : AnalysisResult) :
  get_prop raw "recommendations" = Ok (JArr recs) ->
  toAnalysisResult raw = Ok r ->
  recommendations r = JArr (firstn 5 recs) /\
  List.length (firstn 5 recs) = Nat.min 5 (List.length recs) /\
  (exists dropped, recs = (firstn 5 recs ++ dropped)%list) /\
  ((List.length recs <= 5)%nat -> recommendations r = JArr recs).
Proof.
  intros Hrecs Hr.
  destruct (toAnalysisResult_inv _ _ Hr) as (fs & cl & -> & _ & _ & _ & _ & _ & Hslice).
  cbn [get_prop] in Hrecs. see_result. injection Hrecs as Hrecs.
  rewrite Hrecs, call_slice_array in Hslice. see_result. injection Hslice as <-.
  repeat split.
  - apply length_firstn.
  - exists (skipn 5 recs). symmetry. apply firstn_skipn.
  - intros Hshort. exact (f_equal JArr (@firstn_all2 _ 5%nat recs Hshort)).
Qed.

Lemma recommendations_first_five_witness :
  exists r,
    toAnalysisResult (answer (JNum 40) eight_recommendations) = Ok r /\
    recommendations r = JArr (map JStr ["r1"; "r2"; "r3"; "r4"; "r5"]).
Proof.
  eexists. split; [reflexivity|].
  apply (recommendations_first_five
           (answer (JNum 40) eight_recommendations) eight_recommendations);
    reflexivity.
Defined.

(** C2, as the code has it: the risk score of the answer is copied into
    the result as it is, whatever number it is; nothing clamps it. *)
Theorem score_copied_unclamped (raw : JsValue) (n : Z) (r : AnalysisResult) :
  get_prop raw "overallRiskScore" = Ok (JNum n) ->
  toAnalysisResult raw = Ok r ->
  overallRiskScore r = JNum n.
Proof.
  intros Hscore Hr.
  destruct (toAnalysisResult_inv _ _ Hr) as (fs & cl & -> & _ & _ & _ & _ & -> & _).
  cbn [get_prop] in Hscore. see_result. now injection Hscore.
Qed.

Lemma score_copied_unclamped_witness :
  exists r,
    toAnalysisResult (answer (JNum (-10)) []) = Ok r /\
    overallRiskScore r = JNum (-10).
Proof.
  eexists. split; [reflexivity|].
  apply (score_copied_unclamped (answer (JNum (-10)) []) (-10)); reflexivity.
Defined.

(** C2 fails as stated: a raw score of 150 comes out as 150, not 100, and
    a raw score of -10 comes out as -10, not 0. *)
Lemma score_150_not_clamped :
  (exists r, toAnalysisResult (answer (JNum 150) []) = Ok r /\
             overallRiskScore r = JNum 150 /\
             overallRiskScore r <> JNum 100) /\
  (exists r, toAnalysisResult (answer (JNum (-10)) []) = Ok r /\
             overallRiskScore r = JNum (-10) /\
             overallRiskScore r <> JNum 0).
Proof.
  split; eexists; (split; [reflexivity | split; [reflexivity | discriminate]]).
Qed.

(** C8, as the code has it: an answer whose [flaggedClauses] convert and
    whose [recommendations] can be sliced is converted whether or not it
    has a [summary] or an [overallRiskScore]; [summary], [keyDetails] and
    [overallRiskScore] are the answer's own values, [undefined] when they
    are missing, with no conversion of their type. *)
Theorem fields_copied_without_check (fs : list (string * JsValue))
    (cl : list JsValue) (fl : list FlaggedClause) (recs : JsValue) :
  lookup "flaggedClauses" fs = JArr cl ->
  map_result toFlaggedClause cl = Ok fl ->
  call_slice (lookup "recommendations" fs) 0 5 = Ok recs ->
  toAnalysisResult (JObj fs) =
    Ok {| summary := lookup "summary" fs;
          keyDetails := lookup "keyDetails" fs;
          flaggedClauses := fl;
          overallRiskScore := lookup "overallRiskScore" fs;
          recommendations := recs |}.
Proof.
  intros Hcl Hfl Hrecs. unfold toAnalysisResult. cbn [get_prop]. see_result.
  rewrite Hcl. cbn [call_map]. rewrite Hfl, Hrecs. reflexivity.
Qed.

Lemma fields_copied_without_check_witness :
  toAnalysisResult answer_without_summary =
    Ok {| summary := JUndefined;
          keyDetails := JArr [];
          flaggedClauses := [];
          overallRiskScore := JUndefined;
          recommendations := JArr [JStr "r1"] |}.
Proof.
  apply (fields_copied_without_check
           [("keyDetails", JArr []); ("flaggedClauses", JArr []);
            ("recommendations", JArr [JStr "r1"])] [] [] (JArr [JStr "r1"]));
    reflexivity.
Defined.

(** C8 fails as stated: an answer without [summary] and without
    [overallRiskScore] is converted, not rejected, and a score given as the
    string 85 stays that string. *)
Lemma missing_summary_not_rejected :
  (exists r, toAnalysisResult answer_without_summary = Ok r /\
             summary r = JUndefined /\ overallRiskScore r = JUndefined) /\
  (exists r, toAnalysisResult answer_with_string_score = Ok r /\
             overallRiskScore r = JStr "85" /\ overallRiskScore r <> JNum 85).
Proof.
  split; eexists; (split; [reflexivity | split; [reflexivity | easy]]).
Qed.

(** C3, evaluated on a clause whose category is outside the enumeration
    of [ClausePattern], and on one whose severity is: the conversion
    succeeds and the value is in the resulting clause as it came, next to
    the empty [keywords]. *)
Theorem bogus_category_passes_through :
  (exists r fc,
      toAnalysisResult (answer_with_clause "bogus_category" "high") = Ok r /\
      flaggedClauses r = [fc] /\
      get_prop (clause fc) "category" = Ok (JStr "bogus_category") /\
      is_category (JStr "bogus_category") = false /\
      get_prop (clause fc) "keywords" = Ok (JArr [])) /\
  (exists r fc,
      toAnalysisResult (answer_with_clause "rent" "extreme") = Ok r /\
      flaggedClauses r = [fc] /\
      get_prop (clause fc) "severity" = Ok (JStr "extreme") /\
      is_severity (JStr "extreme") = false).
Proof.
  split; do 2 eexists; repeat split; reflexivity.
Qed.

(** ** The client and the orchestrator, over any host *)

Section HostProperties.

Context {World : Type}.
Variable fetch : World -> Request -> FetchOutcome * World.
Variable JSON_parse : string -> option JsValue.
Variable JSON_stringify : JsValue -> string.
Variable GEMINI_API_KEY : option string.

Local Abbreviation read_response' := (read_response JSON_parse).
Local Abbreviation attempt' := (attempt fetch JSON_parse JSON_stringify).
Local Abbreviation failures' := (failures fetch JSON_parse JSON_stringify).
Local Abbreviation try_endpoints' := (try_endpoints fetch JSON_parse JSON_stringify).
Local Abbreviation callGeminiAPI' :=
  (callGeminiAPI fetch JSON_parse JSON_stringify GEMINI_API_KEY).
Local Abbreviation analyzeContract' :=
  (analyzeContract fetch JSON_parse JSON_stringify GEMINI_API_KEY).

Implicit Types (net : Net World) (p key ep : string) (eps : list string).

(** Every turn issues one request, to its own endpoint. *)
Lemma attempt_calls p key ep net turn net' :
  attempt' p key ep net = (turn, net') ->
  calls net' = (calls net ++ [request ep key p])%list.
Proof.
  unfold attempt, try_body, do_fetch.
  destruct (fetch (world net) (request ep key p)) as [out w].
  destruct out as [response | reason].
  - destruct (negb (ok response)).
    + intros H; injection H as <- <-. reflexivity.
    + destruct (read_response' response); intros H; injection H as <- <-;
        reflexivity.
  - intros H; injection H as <- <-. reflexivity.
Qed.

(** A turn returns only what [JSON.parse] made of the extracted text of
    an ok response. *)
Lemma read_response_return response result :
  read_response' response = Ok (Return result) ->
  exists data text,
    json response = Ok data /\
    JSON_parse (jsonText (trim text)) = Some result.
Proof.
  unfold read_response. see_result.
  destruct (json response) as [t | data]; [discriminate|].
  destruct (get_prop data "candidates") as [t | candidates]; [discriminate|].
  destruct (negb (truthy candidates)); [discriminate|].
  destruct (get_index0 candidates) as [t | first]; [discriminate|].
  destruct (negb (truthy first)); [discriminate|].
  destruct (get_prop first "content") as [t | content]; [discriminate|].
  destruct (negb (truthy content)); [discriminate|].
  destruct (get_prop content "parts") as [t | parts]; [discriminate|].
  destruct (get_index0 parts) as [t | part]; [discriminate|].
  destruct (get_prop part "text") as [t | text]; [discriminate|].
  destruct text as [| | b | n | s | items | fs]; cbn [call_trim]; see_result;
    try discriminate.
  destruct (JSON_parse (jsonText (trim s))) as [v|] eqn:E; [|discriminate].
  intros H; injection H as <-. now exists data, s.
Qed.

Lemma attempt_return p key ep net result net' :
  attempt' p key ep net = (Return result, net') ->
  exists response text,
    fetch (world net) (request ep key p) = (Resolves response, world net') /\
    ok response = true /\
    JSON_parse (jsonText (trim text)) = Some result.
Proof.
  unfold attempt, try_body, do_fetch.
  destruct (fetch (world net) (request ep key p)) as [out w].
  destruct out as [response | reason].
  - destruct (ok response) eqn:Eok; cbn [negb].
    + destruct (read_response' response) as [t | turn] eqn:E.
      * intros H; discriminate H.
      * intros H; injection H as -> <-.
        destruct (read_response_return _ _ E) as (data & text & _ & Hparse).
        now exists response, text.
    + intros H; discriminate H.
  - intros H; discriminate H.
Qed.

Lemma failures_calls p key eps net errs net' :
  failures' p key eps net = Some (errs, net') ->
  calls net' = (calls net ++ map (fun ep => request ep key p) eps)%list /\
  List.length errs = List.length eps.
Proof.
  revert net errs; induction eps as [|ep eps IH]; intros net errs; cbn [failures].
  - intros H; injection H as <- <-. now rewrite app_nil_r.
  - destruct (attempt' p key ep net) as [[result | e] net1] eqn:E; [discriminate|].
    destruct (failures' p key eps net1) as [[errs' net2]|] eqn:E';
      [|discriminate].
    intros H; injection H as <- <-.
    destruct (IH _ _ E') as [-> Hlen].
    rewrite (attempt_calls _ _ _ _ _ _ E), <- app_assoc. cbn. now rewrite Hlen.
Qed.

Lemma last_cons (e d : JsError) (errs : list JsError) :
  last (e :: errs) d = last errs e.
Proof.
  revert e d; induction errs as [|e' errs IH]; intros e d; [reflexivity|].
  change (last (e :: e' :: errs) d) with (last (e' :: errs) d).
  now rewrite !IH.
Qed.

Lemma try_endpoints_exhausted p key eps lastError net errs net' :
  failures' p key eps net = Some (errs, net') ->
  try_endpoints' p key eps lastError net =
    (Throw (ThrowErr (thrown_after lastError errs)), net').
Proof.
  revert lastError net errs; induction eps as [|ep eps IH];
    intros lastError net errs; cbn [failures try_endpoints].
  - intros H; injection H as <- <-. reflexivity.
  - destruct (attempt' p key ep net) as [[result | e] net1]; [discriminate|].
    destruct (failures' p key eps net1) as [[errs' net2]|] eqn:E';
      [|discriminate].
    intros H; injection H as <- <-.
    rewrite (IH _ _ _ E'). unfold thrown_after. now rewrite last_cons.
Qed.

Lemma try_endpoints_first_success p key before winner later lastError
    net errs net1 result net2 :
  failures' p key before net = Some (errs, net1) ->
  attempt' p key winner net1 = (Return result, net2) ->
  try_endpoints' p key (before ++ winner :: later) lastError net =
    (Ok result, net2).
Proof.
  revert lastError net errs; induction before as [|ep before IH];
    intros lastError net errs; cbn [failures try_endpoints app].
  - intros H Hwin; injection H as <- <-. now rewrite Hwin.
  - destruct (attempt' p key ep net) as [[r | e] net0]; [discriminate|].
    destruct (failures' p key before net0) as [[errs' net']|] eqn:E';
      [|discriminate].
    intros H Hwin; injection H as <- <-. exact (IH _ _ _ E' Hwin).
Qed.

(** Either every turn fails, or the list splits at the first turn that
    returns. *)
Lemma failures_or_first_success p key eps net :
  (exists errs net', failures' p key eps net = Some (errs, net')) \/
  (exists before winner later errs net1 result net2,
      eps = (before ++ winner :: later)%list /\
      failures' p key before net = Some (errs, net1) /\
      attempt' p key winner net1 = (Return result, net2)).
Proof.
  revert net; induction eps as [|ep eps IH]; intros net.
  - left. now exists [], net.
  - destruct (attempt' p key ep net) as [[r | e] net0] eqn:E.
    + right. exists [], ep, eps, [], net, r, net0. now repeat split.
    + destruct (IH net0) as [(errs & net' & Hall)
                            |(before & winner & later & errs & net1 & r & net2
                              & -> & Hbefore & Hwin)].
      * left. exists (e :: errs), net'. cbn [failures]. now rewrite E, Hall.
      * right. exists (ep :: before), winner, later, (e :: errs), net1, r, net2.
        cbn [failures app]. now rewrite E, Hbefore.
Qed.

Lemma callGeminiAPI_with_key contractText key net :
  GEMINI_API_KEY = Some key -> key <> EmptyString ->
  callGeminiAPI' contractText net =
    try_endpoints' (prompt contractText) key endpoints None net.
Proof.
  intros -> Hkey. unfold callGeminiAPI. destruct key; [contradiction | reflexivity].
Qed.

(** Whatever the client throws, the orchestrator throws. *)
Lemma analyzeContract_rethrows text net t net' :
  callGeminiAPI' (truncatedText text) net = (Throw t, net') ->
  analyzeContract' text net = (Throw t, net').
Proof. unfold analyzeContract. now intros ->. Qed.

(** The requests of one call of the client all carry the prompt built
    from its argument. *)
Lemma callGeminiAPI_requests contractText net :
  exists sent,
    calls (snd (callGeminiAPI' contractText net)) = (calls net ++ sent)%list /\
    forall rq, In rq sent -> req_text rq = prompt contractText.
Proof.
  unfold callGeminiAPI.
  destruct GEMINI_API_KEY as [[|c key]|];
    try (exists []; cbn; now rewrite app_nil_r).
  set (k := String c key). set (p := prompt contractText).
  assert (Hreq : forall eps rq,
             In rq (map (fun ep => request ep k p) eps) -> req_text rq = p).
  { intros eps rq Hin. apply in_map_iff in Hin as (ep & <- & _). reflexivity. }
  destruct (failures_or_first_success p k endpoints net)
    as [(errs & net' & Hall)
       |(before & winner & later & errs & net1 & r & net2 & Hsplit & Hbefore & Hwin)].
  - rewrite (try_endpoints_exhausted _ _ _ None _ _ _ Hall). cbn [snd].
    destruct (failures_calls _ _ _ _ _ _ Hall) as [-> _].
    eexists; split; [reflexivity | apply Hreq].
  - rewrite Hsplit, (try_endpoints_first_success _ _ _ _ later None _ _ _ _ _ Hbefore Hwin).
    cbn [snd]. rewrite (attempt_calls _ _ _ _ _ _ Hwin).
    destruct (failures_calls _ _ _ _ _ _ Hbefore) as [-> _].
    rewrite <- app_assoc.
    exists (map (fun ep => request ep k p) (before ++ [winner])).
    split; [now rewrite map_app | apply Hreq].
Qed.

(** C4: the endpoints are tried in their order.  When the turns over
    [before] all fail and the turn of [winner] returns, the client returns
    that result at once: the requests issued are those to [before] and to
    [winner], one each and in order, and none to [later].  A success of
    the client always is of this form, and what is returned is what
    [JSON.parse] made of the text extracted from the winner's ok
    response. *)
Theorem first_success_wins contractText key net :
  GEMINI_API_KEY = Some key -> key <> EmptyString ->
  (forall before winner later errs net1 result net2,
      endpoints = (before ++ winner :: later)%list ->
      failures' (prompt contractText) key before net = Some (errs, net1) ->
      attempt' (prompt contractText) key winner net1 = (Return result, net2) ->
      callGeminiAPI' contractText net = (Ok result, net2) /\
      calls net2 =
        (calls net ++ map (fun ep => request ep key (prompt contractText))
                          (before ++ [winner]))%list) /\
  (forall result net2,
      callGeminiAPI' contractText net = (Ok result, net2) ->
      exists before winner later errs net1 response text,
        endpoints = (before ++ winner :: later)%list /\
        failures' (prompt contractText) key before net = Some (errs, net1) /\
        attempt' (prompt contractText) key winner net1 = (Return result, net2) /\
        fetch (world net1) (request winner key (prompt contractText)) =
          (Resolves response, world net2) /\
        ok response = true /\
        JSON_parse (jsonText (trim text)) = Some result).
Proof.
  intros Hkey Hne. rewrite (callGeminiAPI_with_key _ _ _ Hkey Hne). split.
  - intros before winner later errs net1 result net2 -> Hbefore Hwin. split.
    + exact (try_endpoints_first_success _ _ _ _ _ _ _ _ _ _ _ Hbefore Hwin).
    + rewrite (attempt_calls _ _ _ _ _ _ Hwin).
      destruct (failures_calls _ _ _ _ _ _ Hbefore) as [-> _].
      now rewrite map_app, app_assoc.
  - intros result net2 Hcall.
    destruct (failures_or_first_success (prompt contractText) key endpoints net)
      as [(errs & net' & Hall)
         |(before & winner & later & errs & net1 & r & net3 & Hsplit & Hbefore & Hwin)].
    + rewrite (try_endpoints_exhausted _ _ _ None _ _ _ Hall) in Hcall.
      discriminate Hcall.
    + rewrite Hsplit,
        (try_endpoints_first_success _ _ _ _ later None _ _ _ _ _ Hbefore Hwin)
        in Hcall.
      injection Hcall as -> ->.
      destruct (attempt_return _ _ _ _ _ _ Hwin) as (response & text & Hf & Hok & Hp).
      exists before, winner, later, errs, net1, response, text. now repeat split.
Qed.

(** C10: without a key the client throws its configuration error at
    once: the network and the log of requests are as they were, so no
    request was issued; the orchestrator throws the same error and
    produces no result. *)
Theorem missing_key_fails_fast text net :
  GEMINI_API_KEY = None \/ GEMINI_API_KEY = Some EmptyString ->
  callGeminiAPI' text net = (Throw (ThrowErr (Error key_missing_message)), net) /\
  analyzeContract' text net = (Throw (ThrowErr (Error key_missing_message)), net).
Proof.
  intros Hkey.
  assert (Hcall : forall contractText,
             callGeminiAPI' contractText net =
               (Throw (ThrowErr (Error key_missing_message)), net)).
  { intros contractText. unfold callGeminiAPI. now destruct Hkey as [-> | ->]. }
  split; [apply Hcall | apply analyzeContract_rethrows, Hcall].
Qed.

End HostProperties.

(** ** The theorems at the sample hosts *)

Lemma first_success_wins_witness :
  fst (callGeminiAPI failover_fetch table_parse plain_stringify (Some "k") "lease" fresh)
    = Ok (answer (JNum 40) [JStr "r1"]) /\
  map req_url
      (calls (snd (callGeminiAPI failover_fetch table_parse plain_stringify
                                 (Some "k") "lease" fresh)))
    = [nth 0 endpoints EmptyString ++ "?key=k"; nth 1 endpoints EmptyString ++ "?key=k"].
Proof.
  destruct (first_success_wins failover_fetch table_parse plain_stringify
              (Some "k") "lease" "k" fresh eq_refl) as [Hfirst _];
    [discriminate|].
  destruct (Hfirst [nth 0 endpoints EmptyString] (nth 1 endpoints EmptyString) [nth 2 endpoints EmptyString]
              [Error "Gemini API error: 404 Not Found. {}"]
              (mkNet 1%nat [request (nth 0 endpoints EmptyString) "k" (prompt "lease")])
              (answer (JNum 40) [JStr "r1"])
              (mkNet 2%nat [request (nth 0 endpoints EmptyString) "k" (prompt "lease");
                            request (nth 1 endpoints EmptyString) "k" (prompt "lease")]))
    as [Hcall Hcalls];
    [reflexivity | vm_compute; reflexivity | vm_compute; reflexivity |].
  rewrite Hcall. split; reflexivity.
Defined.

Lemma missing_key_fails_fast_witness :
  analyzeContract failover_fetch table_parse plain_stringify None "lease" fresh
    = (Throw (ThrowErr (Error key_missing_message)), fresh).
Proof.
  apply (missing_key_fails_fast failover_fetch table_parse plain_stringify None
           "lease" fresh).
  left. reflexivity.
Defined.

(** C1, evaluated on a network where the three endpoints fail (a 404, an
    answer without candidates, a text that is not JSON): [analyzeContract]
    ends with the last of the three errors, after three requests; it has
    no handler around the call of the client and no other analyzer to turn
    to. *)
Theorem exhaustion_reaches_the_caller :
  fst (analyzeContract failing_fetch table_parse plain_stringify (Some "k") "lease" fresh)
    = Throw (ThrowErr SyntaxError) /\
  map req_url
      (calls (snd (analyzeContract failing_fetch table_parse plain_stringify
                                   (Some "k") "lease" fresh)))
    = map (fun ep => ep ++ "?key=k") endpoints.
Proof.
  split; vm_compute; reflexivity.
Qed.


(** * Further properties of the code *)

(** ** Objects *)

Lemma lookup_set_prop_same (k : string) (v : JsValue) (fs : list (string * JsValue)) :
  lookup k (set_prop k v fs) = v.
Proof.
  induction fs as [|[k' v'] fs IH]; cbn [set_prop lookup].
  - now rewrite String.eqb_refl.
  - destruct (String.eqb k k') eqn:E; cbn [lookup]; now rewrite E.
Qed.

Lemma lookup_set_prop_other (k k' : string) (v : JsValue) (fs : list (string * JsValue)) :
  k <> k' -> lookup k' (set_prop k v fs) = lookup k' fs.
Proof.
  intros Hne. induction fs as [|[k0 v0] fs IH]; cbn [set_prop lookup].
  - destruct (String.eqb_spec k' k) as [->|_]; [contradiction | reflexivity].
  - destruct (String.eqb_spec k k0) as [->|_]; cbn [lookup].
    + destruct (String.eqb_spec k' k0) as [->|_]; [contradiction | reflexivity].
    + now rewrite IH.
Qed.

(** ** The flagged clauses *)

Lemma map_result_Forall2 {A B : Type} (f : A -> Result B) (l : list A) (l' : list B) :
  map_result f l = Ok l' -> Forall2 (fun a b => f a = Ok b) l l'.
Proof.
  revert l'; induction l as [|a l IH]; intros l'; cbn [map_result]; see_result.
  - intros H; injection H as <-. constructor.
  - destruct (f a) as [t|b] eqn:Ea; [discriminate|].
    destruct (map_result f l) as [t|bs]; [discriminate|].
    intros H; injection H as <-. constructor; [exact Ea | now apply IH].
Qed.

(** What the callback makes of an entry it can read. *)
Lemma toFlaggedClause_inv (fc : JsValue) (fc' : FlaggedClause) :
  toFlaggedClause fc = Ok fc' ->
  exists c category,
    get_prop fc "clause" = Ok c /\
    get_prop c "category" = Ok category /\
    clause fc' =
      JObj (set_prop "category" category (set_prop "keywords" (JArr []) (own_props c))) /\
    get_prop fc "matchedText" = Ok (matchedText fc') /\
    get_prop fc "position" = Ok (position fc').
Proof.
  unfold toFlaggedClause. see_result.
  destruct (get_prop fc "clause") as [t|c]; [discriminate|].
  destruct (get_prop c "category") as [t|category] eqn:Ecat; [discriminate|].
  destruct (get_prop fc "matchedText") as [t|matched]; [discriminate|].
  destruct (get_prop fc "position") as [t|pos]; [discriminate|].
  intros H; injection H as <-. now exists c, category.
Qed.

(** X1: in every result of the conversion, every flagged clause has an
    empty [keywords], whatever keywords the answer carried. *)
Theorem keywords_always_empty (raw : JsValue) (r : AnalysisResult) :
  toAnalysisResult raw = Ok r ->
  Forall (fun fc => get_prop (clause fc) "keywords" = Ok (JArr [])) (flaggedClauses r).
Proof.
  intros Hr.
  destruct (toAnalysisResult_inv _ _ Hr) as (fs & cl & _ & _ & Hmap & _).
  apply map_result_Forall2 in Hmap.
  generalize (flaggedClauses r) cl Hmap. clear.
  induction 1 as [|fc fc' cl' fl Hfc _ IH]; constructor; [|exact IH].
  destruct (toFlaggedClause_inv _ _ Hfc) as (c & category & _ & _ & -> & _).
  cbn [get_prop]. unfold Ok. f_equal.
  rewrite lookup_set_prop_other by discriminate.
  apply lookup_set_prop_same.
Qed.

Lemma keywords_always_empty_witness :
  exists r fc,
    toAnalysisResult answer_with_keywords = Ok r /\
    flaggedClauses r = [fc] /\
    get_prop (clause fc) "keywords" = Ok (JArr []).
Proof.
  do 2 eexists. split; [reflexivity|]. split; [reflexivity|].
  exact (Forall_inv (keywords_always_empty answer_with_keywords _ eq_refl)).
Defined.

(** X2: the flagged clauses of the result are those of the answer, one for
    one and in the same order: [matchedText] and [position] are the
    entry's own, and when the entry's clause is an object, every property
    of it other than [keywords] (its category and severity among them) is
    in the resulting clause with the same value. *)
Theorem flagged_clauses_preserved (raw : JsValue) (r : AnalysisResult) :
  toAnalysisResult raw = Ok r ->
  exists cl,
    get_prop raw "flaggedClauses" = Ok (JArr cl) /\
    List.length (flaggedClauses r) = List.length cl /\
    Forall2
      (fun fc fc' =>
         get_prop fc "matchedText" = Ok (matchedText fc') /\
         get_prop fc "position" = Ok (position fc') /\
         forall cfs, get_prop fc "clause" = Ok (JObj cfs) ->
           exists cfs',
             clause fc' = JObj cfs' /\
             forall k, k <> "keywords" -> lookup k cfs' = lookup k cfs)
      cl (flaggedClauses r).
Proof.
  intros Hr.
  destruct (toAnalysisResult_inv _ _ Hr) as (fs & cl & -> & Hcl & Hmap & _).
  apply map_result_Forall2 in Hmap.
  exists cl. cbn [get_prop]. rewrite Hcl. split; [reflexivity|].
  split; [symmetry; exact (Forall2_length Hmap)|].
  eapply Forall2_impl; [|exact Hmap]. cbv beta. intros fc fc' Hfc.
  destruct (toFlaggedClause_inv _ _ Hfc) as (c & category & Hc & Hcat & Hclause & Hm & Hp).
  repeat split; trivial.
  intros cfs Hobj. rewrite Hc in Hobj. unfold Ok in Hobj. injection Hobj as ->.
  cbn [get_prop] in Hcat. unfold Ok in Hcat. injection Hcat as <-.
  eexists. split; [exact Hclause|].
  intros k Hk. cbn [own_props].
  destruct (String.eqb_spec "category" k) as [<-|Hne].
  - apply lookup_set_prop_same.
  - rewrite lookup_set_prop_other by exact Hne.
    apply lookup_set_prop_other. congruence.
Qed.

Lemma flagged_clauses_preserved_witness :
  exists r cl,
    toAnalysisResult (answer_with_clause "bogus_category" "high") = Ok r /\
    get_prop (answer_with_clause "bogus_category" "high") "flaggedClauses" = Ok (JArr cl) /\
    List.length (flaggedClauses r) = List.length cl.
Proof.
  eexists.
  destruct (flagged_clauses_preserved (answer_with_clause "bogus_category" "high") _ eq_refl)
    as (cl & Hcl & Hlen & _).
  exists cl. split; [reflexivity|]. now split.
Defined.

(** ** What the conversion accepts *)

Lemma toFlaggedClause_usable (fc : JsValue) :
  usable_clause fc = true -> exists fc', toFlaggedClause fc = Ok fc'.
Proof.
  unfold usable_clause, toFlaggedClause.
  destruct fc as [| | b | n | s | items | fs]; cbn [get_prop]; see_result;
    try discriminate.
  destruct (lookup "clause" fs) as [| | b | n | s | items | cfs];
    cbn [get_prop]; try discriminate; intros _; eexists; reflexivity.
Qed.

Lemma toFlaggedClause_unusable (fc : JsValue) :
  usable_clause fc = false -> toFlaggedClause fc = throwTypeError.
Proof.
  unfold usable_clause, toFlaggedClause.
  destruct fc as [| | b | n | s | items | fs]; cbn [get_prop]; see_result;
    try reflexivity.
  destruct (lookup "clause" fs) as [| | b | n | s | items | cfs];
    cbn [get_prop]; try discriminate; reflexivity.
Qed.

Lemma map_result_usable (cl : list JsValue) :
  forallb usable_clause cl = true -> exists fl, map_result toFlaggedClause cl = Ok fl.
Proof.
  induction cl as [|fc cl IH]; cbn [forallb map_result].
  - intros _. now exists [].
  - intros H. apply andb_true_iff in H as [Hfc Hcl].
    destruct (toFlaggedClause_usable _ Hfc) as [fc' ->].
    destruct (IH Hcl) as [fl ->]. now exists (fc' :: fl).
Qed.

Lemma map_result_unusable (cl : list JsValue) :
  forallb usable_clause cl = false -> map_result toFlaggedClause cl = throwTypeError.
Proof.
  induction cl as [|fc cl IH]; cbn [forallb map_result]; [discriminate|].
  destruct (usable_clause fc) eqn:Efc; cbn [andb].
  - intros Hcl. destruct (toFlaggedClause_usable _ Efc) as [fc' ->].
    now rewrite (IH Hcl).
  - intros _. now rewrite (toFlaggedClause_unusable _ Efc).
Qed.

Lemma call_slice_has_slice (v : JsValue) :
  has_slice v = true ->
  exists w n m, call_slice v 0 5 = Ok w /\ size_of w = Some n /\ size_of v = Some m /\
                (n <= 5)%nat /\ (n <= m)%nat.
Proof.
  destruct v as [| | b | k | s | items | fs]; cbn [has_slice]; try discriminate;
    intros _.
  - unfold call_slice, slice_bound, js_length.
    change (0 <? 0) with false. change (5 <? 0) with false. cbv iota.
    set (len := Z.of_nat (String.length s)).
    replace (Z.min 0 len) with 0 by lia. cbn [Z.to_nat drop].
    eexists _, _, _. split; [reflexivity|]. split; [reflexivity|].
    split; [reflexivity|]. cbn [size_of].
    assert (Htake : forall n t, (String.length (take n t) <= n)%nat /\
                                (String.length (take n t) <= String.length t)%nat).
    { induction n as [|n IH]; intros [|c t]; cbn; try lia.
      destruct (IH t). lia. }
    destruct (Htake (Z.to_nat (Z.max (Z.min 5 len - 0) 0)) s) as [H1 H2].
    split; [|exact H2]. lia.
  - rewrite call_slice_array. exists (JArr (firstn 5 items)), (List.length (firstn 5 items)),
      (List.length items).
    repeat split; rewrite length_firstn; lia.
Qed.

Lemma call_slice_no_slice (v : JsValue) (a b : Z) :
  has_slice v = false -> call_slice v a b = throwTypeError.
Proof. destruct v; cbn; (discriminate || reflexivity). Qed.

Lemma accepted_converts (raw : JsValue) :
  accepted raw = true -> exists r, toAnalysisResult raw = Ok r.
Proof.
  unfold accepted, toAnalysisResult.
  destruct raw as [| | b | n | s | items | fs]; try discriminate.
  cbn [get_prop]. see_result.
  destruct (lookup "flaggedClauses" fs) as [| | b | n | s | cl | fs'];
    try discriminate.
  cbn [call_map]. intros H. apply andb_true_iff in H as [Hcl Hrecs].
  destruct (map_result_usable _ Hcl) as [fl ->].
  destruct (call_slice_has_slice _ Hrecs) as (w & n & m & -> & _).
  eexists; reflexivity.
Qed.

Lemma rejected_throws (raw : JsValue) :
  accepted raw = false -> toAnalysisResult raw = throwTypeError.
Proof.
  unfold accepted, toAnalysisResult.
  destruct raw as [| | b | n | s | items | fs]; cbn [get_prop]; see_result;
    cbn [call_map]; try reflexivity.
  destruct (lookup "flaggedClauses" fs) as [| | b | n | s | cl | fs'];
    cbn [call_map]; try reflexivity.
  intros H.
  destruct (forallb usable_clause cl) eqn:Hcl; cbn [andb] in H.
  - destruct (map_result_usable _ Hcl) as [fl ->].
    now rewrite (call_slice_no_slice _ _ _ H).
  - now rewrite (map_result_unusable _ Hcl).
Qed.

(** X3: the conversion succeeds exactly on an object whose
    [flaggedClauses] is an array of entries with a clause that is neither
    [undefined] nor [null] and whose [recommendations] is an array or a
    string; on every other answer it throws a TypeError, so a single
    unreadable entry rejects the whole answer. *)
Theorem conversion_accepts_exactly (raw : JsValue) :
  ((exists r, toAnalysisResult raw = Ok r) <-> accepted raw = true) /\
  (accepted raw = false -> toAnalysisResult raw = throwTypeError).
Proof.
  split; [split|apply rejected_throws].
  - intros [r Hr]. destruct (accepted raw) eqn:E; [reflexivity|].
    rewrite (rejected_throws _ E) in Hr. discriminate Hr.
  - apply accepted_converts.
Qed.

Lemma conversion_accepts_exactly_witness :
  (exists r, toAnalysisResult answer_with_keywords = Ok r) /\
  toAnalysisResult (JObj [("flaggedClauses", JArr [JNum 1]); ("recommendations", JArr [])])
    = throwTypeError.
Proof.
  split.
  - exact (proj2 (proj1 (conversion_accepts_exactly answer_with_keywords)) eq_refl).
  - exact (proj2 (conversion_accepts_exactly
                    (JObj [("flaggedClauses", JArr [JNum 1]); ("recommendations", JArr [])]))
                 eq_refl).
Defined.

(** X4: in every result of the conversion [recommendations] has at most
    five entries, and no more than the answer had: at most five elements
    when the answer gave an array, at most five characters when it gave a
    string. *)
Theorem recommendations_at_most_five (raw : JsValue) (r : AnalysisResult) :
  toAnalysisResult raw = Ok r ->
  exists given kept sent,
    get_prop raw "recommendations" = Ok given /\
    size_of given = Some sent /\
    size_of (recommendations r) = Some kept /\
    (kept <= 5)%nat /\ (kept <= sent)%nat.
Proof.
  intros Hr.
  destruct (toAnalysisResult_inv _ _ Hr) as (fs & cl & -> & _ & _ & _ & _ & _ & Hslice).
  assert (Hhas : has_slice (lookup "recommendations" fs) = true).
  { destruct (has_slice (lookup "recommendations" fs)) eqn:E; [reflexivity|].
    rewrite (call_slice_no_slice _ _ _ E) in Hslice. discriminate Hslice. }
  destruct (call_slice_has_slice _ Hhas) as (w & n & m & Hw & Hn & Hm & H5 & Hle).
  rewrite Hw in Hslice. unfold Ok in Hslice. injection Hslice as <-.
  exists (lookup "recommendations" fs), n, m. now repeat split.
Qed.

Lemma recommendations_at_most_five_witness :
  exists r kept,
    toAnalysisResult answer_with_keywords = Ok r /\
    size_of (recommendations r) = Some kept /\
    (kept <= 5)%nat.
Proof.
  eexists.
  destruct (recommendations_at_most_five answer_with_keywords _ eq_refl)
    as (given & kept & sent & _ & _ & Hkept & Hfive & _).
  exists kept. split; [reflexivity|]. split; [exact Hkept | exact Hfive].
Defined.

(** ** Truncation *)

Lemma take_app_exact (a b : string) : take (String.length a) (a ++ b) = a.
Proof. induction a as [|c a IH]; cbn; [now destruct b | now rewrite IH]. Qed.

Lemma truncation_marker_length : js_length truncation_marker = 44.
Proof. reflexivity. Qed.

(** X5: whatever the length of the text, what [analyzeContract] hands to
    the client has at most 50044 characters (50000 and the 44 of the
    marker), and truncating what was truncated changes nothing. *)
Theorem truncation_bounded_and_idempotent (text : string) :
  js_length (truncatedText text) <= 50044 /\
  truncatedText (truncatedText text) = truncatedText text.
Proof.
  destruct (Z.le_gt_cases (js_length text) maxLength) as [Hshort | Hlong].
  - rewrite !(truncatedText_short _ Hshort). unfold maxLength in Hshort. now split; [lia|].
  - apply Z.lt_gt in Hlong.
    assert (Hkept : String.length (take (Z.to_nat maxLength) text) = Z.to_nat maxLength).
    { apply length_take. unfold js_length, maxLength in *. lia. }
    assert (Hlen : js_length (truncatedText text) = 50044).
    { rewrite (truncatedText_long _ Hlong). unfold js_length.
      rewrite length_app, Hkept, Nat2Z.inj_add, Z2Nat.id by (unfold maxLength; lia).
      fold (js_length truncation_marker). rewrite truncation_marker_length.
      reflexivity. }
    split; [lia|].
    rewrite (truncatedText_long (truncatedText text)) by (unfold maxLength; lia).
    rewrite (truncatedText_long _ Hlong) at 1.
    rewrite <- Hkept at 1. rewrite take_app_exact.
    symmetry. exact (truncatedText_long _ Hlong).
Qed.

(** ** The brace pattern, the other way round *)

Lemma greedy_to_close_no_brace (s : string) :
  has_char close_brace s = false -> greedy_to_close s = None.
Proof.
  induction s as [|c s IH]; cbn; [reflexivity|].
  intros H. apply orb_false_iff in H as [Hc Hs]. now rewrite (IH Hs), Hc.
Qed.

Lemma greedy_to_close_app (body after : string) :
  has_char close_brace after = false ->
  greedy_to_close (body ++ String close_brace after) =
    Some (body ++ String close_brace EmptyString).
Proof.
  intros Hafter. induction body as [|c body IH]; cbn [append greedy_to_close].
  - now rewrite (greedy_to_close_no_brace _ Hafter), Ascii.eqb_refl.
  - now rewrite IH.
Qed.

Lemma match_braces_app (before body after : string) :
  has_char open_brace before = false ->
  has_char close_brace after = false ->
  match_braces (before ++ String open_brace (body ++ String close_brace after)) =
    Some (String open_brace (body ++ String close_brace EmptyString)).
Proof.
  intros Hbefore Hafter. induction before as [|c before IH]; cbn [append match_braces].
  - now rewrite Ascii.eqb_refl, (greedy_to_close_app _ _ Hafter).
  - cbn [has_char] in Hbefore. apply orb_false_iff in Hbefore as [Hc Hrest].
    now rewrite Hc, (IH Hrest).
Qed.

(** X6: when the text before the object has no opening brace and the text
    after it has no closing brace, [jsonText] is exactly the object, braces
    nested inside it included; in particular a text that is a bare object
    comes out as it is. *)
Theorem json_text_of_wrapped_object (before body after : string) :
  has_char open_brace before = false ->
  has_char close_brace after = false ->
  jsonText (before ++ String open_brace (body ++ String close_brace after)) =
    String open_brace (body ++ String close_brace EmptyString).
Proof.
  intros Hbefore Hafter. unfold jsonText.
  now rewrite (match_braces_app _ _ _ Hbefore Hafter).
Qed.

Lemma json_text_of_wrapped_object_witness :
  jsonText ("Here is the result: " ++ String open_brace ("a: {b: 1}" ++ String close_brace " Bye."))
    = String open_brace ("a: {b: 1}" ++ String close_brace EmptyString).
Proof.
  apply (json_text_of_wrapped_object "Here is the result: " "a: {b: 1}" " Bye.");
    reflexivity.
Defined.

Lemma append_empty_r (s : string) : s ++ EmptyString = s.
Proof. induction s as [|c s IH]; cbn; [reflexivity | now rewrite IH]. Qed.

Lemma append_last_assoc (body after : string) (c : ascii) :
  (body ++ String c EmptyString) ++ after = body ++ String c after.
Proof. induction body as [|c' body IH]; cbn; [reflexivity | now rewrite IH]. Qed.

(** X7: [jsonText] is a contiguous part of the text, and extracting from
    what was extracted changes nothing. *)
Theorem json_text_part_and_idempotent (responseText : string) :
  (exists before after, responseText = before ++ jsonText responseText ++ after) /\
  jsonText (jsonText responseText) = jsonText responseText.
Proof.
  destruct (match_braces responseText) as [m|] eqn:E.
  - destruct (match_braces_some _ _ E) as (before & body & after & Htext & _ & _ & Hm).
    assert (Hjson : jsonText responseText = m) by (unfold jsonText; now rewrite E).
    rewrite Hjson. split.
    + exists before, after. rewrite Htext, Hm. cbn [append].
      now rewrite append_last_assoc.
    + rewrite Hm.
      exact (json_text_of_wrapped_object EmptyString body EmptyString eq_refl eq_refl).
  - assert (Hjson : jsonText responseText = responseText)
      by (unfold jsonText; now rewrite E).
    rewrite !Hjson. split; [|reflexivity].
    exists EmptyString, EmptyString. cbn [append]. now rewrite append_empty_r.
Qed.

(** ** The prompt *)

Lemma truncatedText_length (text : string) : js_length (truncatedText text) <= 50044.
Proof.
  destruct (Z.le_gt_cases (js_length text) maxLength) as [Hshort | Hlong].
  - rewrite (truncatedText_short _ Hshort). unfold maxLength in Hshort. lia.
  - apply Z.lt_gt in Hlong. rewrite (truncatedText_long _ Hlong). unfold js_length.
    rewrite length_app, length_take by (unfold js_length, maxLength in *; lia).
    rewrite Nat2Z.inj_add, Z2Nat.id by (unfold maxLength; lia).
    fold (js_length truncation_marker). rewrite truncation_marker_length.
    unfold maxLength. lia.
Qed.

(** X8: the prompt is the contract text, verbatim, between the 1933
    characters of the instructions, which end in the line that announces
    the contract text, and the 40 characters of the closing instruction;
    so it has 1973 characters more than the text, and the prompt that
    [analyzeContract] sends never has more than 52017 characters. *)
Theorem prompt_bounded (text : string) :
  (forall contractText, prompt contractText = prompt_head ++ contractText ++ prompt_tail) /\
  js_length prompt_head = 1933 /\
  (exists instructions, prompt_head = instructions ++ "Contract text:" ++ newline) /\
  js_length prompt_tail = 40 /\
  prompt_tail = newline ++ newline ++ "Return ONLY valid JSON, no other text." /\
  (forall contractText, js_length (prompt contractText) = 1973 + js_length contractText) /\
  js_length (prompt (truncatedText text)) <= 52017.
Proof.
  assert (Hhead : js_length prompt_head = 1933) by (vm_compute; reflexivity).
  assert (Htail : js_length prompt_tail = 40) by (vm_compute; reflexivity).
  assert (Hprompt : forall contractText,
             js_length (prompt contractText) = 1973 + js_length contractText).
  { intros contractText. unfold prompt, js_length. rewrite !length_app, !Nat2Z.inj_add.
    change (Z.of_nat (String.length prompt_head)) with (js_length prompt_head).
    change (Z.of_nat (String.length prompt_tail)) with (js_length prompt_tail).
    rewrite Hhead, Htail. lia. }
  split; [reflexivity|]. split; [exact Hhead|]. split.
  - exists (take (Z.to_nat 1918) prompt_head). vm_compute. reflexivity.
  - split; [exact Htail|]. split; [vm_compute; reflexivity|].
    split; [exact Hprompt|].
    rewrite Hprompt. pose proof (truncatedText_length text). lia.
Qed.

(** ** The header *)

Lemma clicks_parity (events : list HeaderEvent) (mobileMenuOpen now : bool) :
  clicks mobileMenuOpen events = Some now ->
  now = xorb (if existsb (fun e => match e with ClickMobileLink _ => true | _ => false end)
                         events
              then false else mobileMenuOpen)
             (Nat.odd (presses_since_link events)).
Proof.
  revert mobileMenuOpen; induction events as [|e events IH]; intros b;
    cbn [clicks presses_since_link existsb].
  - intros H; injection H as <-. now destruct b.
  - destruct e as [| href | href]; cbn [on_click orb].
    + intros H. rewrite (IH _ H).
      destruct (existsb _ events); [reflexivity|].
      rewrite Nat.odd_succ, <- Nat.negb_odd.
      now destruct b, (Nat.odd (presses_since_link events)).
    + intros H. exact (IH _ H).
    + destruct (existsb (String.eqb href) (mobile_links b)); [|discriminate].
      intros H. rewrite (IH _ H). now destruct (existsb _ events).
Qed.

(** X9: after any sequence of clicks on the freshly mounted header, the
    mobile menu is open exactly when the menu button was clicked an odd
    number of times since the last click on a link of the mobile menu (since
    the mount, when there was none); the icon and the mobile links follow. *)
Theorem header_menu_parity (events : list HeaderEvent) (mobileMenuOpen : bool) :
  clicks initialMenuOpen events = Some mobileMenuOpen ->
  mobileMenuOpen = Nat.odd (presses_since_link events) /\
  menu_icon mobileMenuOpen = (if Nat.odd (presses_since_link events) then IconX else IconMenu) /\
  (mobile_links mobileMenuOpen = [] <-> Nat.even (presses_since_link events) = true).
Proof.
  intros H. apply clicks_parity in H. unfold initialMenuOpen in H.
  assert (Hopen : mobileMenuOpen = Nat.odd (presses_since_link events)).
  { rewrite H. now destruct (existsb _ events). }
  split; [exact Hopen|]. rewrite Hopen, <- Nat.negb_odd.
  split; [reflexivity|].
  destruct (Nat.odd (presses_since_link events)); cbn; split; (discriminate || reflexivity).
Qed.

Lemma header_menu_parity_witness :
  clicks initialMenuOpen
         [ClickMenuButton; ClickMobileLink "#upload"; ClickMenuButton; ClickMenuButton;
          ClickDesktopLink "#how-it-works"; ClickMenuButton] = Some true /\
  menu_icon true = IconX.
Proof.
  split; [reflexivity|].
  destruct (header_menu_parity
              [ClickMenuButton; ClickMobileLink "#upload"; ClickMenuButton; ClickMenuButton;
               ClickDesktopLink "#how-it-works"; ClickMenuButton] true eq_refl)
    as (_ & Hicon & _).
  exact Hicon.
Defined.

(** ** The client and the orchestrator, further *)

Lemma endpoint_urls_distinct (key : string) :
  NoDup (map (fun ep => ep ++ "?key=" ++ key) endpoints).
Proof.
  unfold endpoints. cbn [map].
  repeat constructor; cbn [In]; intros H;
    repeat (destruct H as [H | H]; [cbn in H; discriminate H|]); exact H.
Qed.

Section HostFurther.

Context {World : Type}.
Variable fetch : World -> Request -> FetchOutcome * World.
Variable JSON_parse : string -> option JsValue.
Variable JSON_stringify : JsValue -> string.
Variable GEMINI_API_KEY : option string.

Local Abbreviation attempt' := (attempt fetch JSON_parse JSON_stringify).
Local Abbreviation failures' := (failures fetch JSON_parse JSON_stringify).
Local Abbreviation try_endpoints' := (try_endpoints fetch JSON_parse JSON_stringify).
Local Abbreviation callGeminiAPI' :=
  (callGeminiAPI fetch JSON_parse JSON_stringify GEMINI_API_KEY).
Local Abbreviation analyzeContract' :=
  (analyzeContract fetch JSON_parse JSON_stringify GEMINI_API_KEY).

Implicit Types (net : Net World) (p key ep : string) (eps : list string).

(** The two ways a call of the client with a key can end. *)
Lemma client_outcomes contractText key net :
  GEMINI_API_KEY = Some key -> key <> EmptyString ->
  (exists earlier e net',
      failures' (prompt contractText) key endpoints net =
        Some ((earlier ++ [e])%list, net') /\
      callGeminiAPI' contractText net = (Throw (ThrowErr e), net') /\
      calls net' =
        (calls net ++ map (fun ep => request ep key (prompt contractText))
                          endpoints)%list) \/
  (exists before winner later errs net1 raw net2,
      endpoints = (before ++ winner :: later)%list /\
      failures' (prompt contractText) key before net = Some (errs, net1) /\
      attempt' (prompt contractText) key winner net1 = (Return raw, net2) /\
      callGeminiAPI' contractText net = (Ok raw, net2) /\
      calls net2 =
        (calls net ++ map (fun ep => request ep key (prompt contractText))
                          (before ++ [winner]))%list).
Proof.
  intros Hkey Hne. rewrite (callGeminiAPI_with_key _ _ _ _ _ _ _ Hkey Hne).
  destruct (failures_or_first_success fetch JSON_parse JSON_stringify
              (prompt contractText) key endpoints net)
    as [(errs & net' & Hall)
       |(before & winner & later & errs & net1 & raw & net2 & Hsplit & Hbefore & Hwin)].
  - left. destruct (failures_calls _ _ _ _ _ _ _ _ _ Hall) as [Hcalls Hlen].
    destruct (exists_last (l := errs)) as (earlier & e & ->).
    { intros ->. discriminate Hlen. }
    exists earlier, e, net'. repeat split; trivial.
    rewrite (try_endpoints_exhausted _ _ _ _ _ _ None _ _ _ Hall).
    unfold thrown_after. now rewrite last_last.
  - right. exists before, winner, later, errs, net1, raw, net2.
    repeat split; trivial.
    + rewrite Hsplit.
      exact (try_endpoints_first_success _ _ _ _ _ _ _ _ _ _ _ _ _ _ Hbefore Hwin).
    + rewrite (attempt_calls _ _ _ _ _ _ _ _ _ Hwin).
      destruct (failures_calls _ _ _ _ _ _ _ _ _ Hbefore) as [-> _].
      now rewrite map_app, app_assoc.
Qed.

(** X10: every call of the client with a key issues at least one request
    and at most three: to the first [n] endpoints, in their order, no
    endpoint twice; all three when the call throws. *)
Theorem requests_bounded contractText key net :
  GEMINI_API_KEY = Some key -> key <> EmptyString ->
  exists n,
    (1 <= n <= 3)%nat /\
    calls (snd (callGeminiAPI' contractText net)) =
      (calls net ++ map (fun ep => request ep key (prompt contractText))
                        (firstn n endpoints))%list /\
    NoDup (map req_url (map (fun ep => request ep key (prompt contractText))
                            (firstn n endpoints))) /\
    (forall t, fst (callGeminiAPI' contractText net) = Throw t -> n = 3%nat).
Proof.
  intros Hkey Hne.
  assert (Hurls : forall n,
             NoDup (map req_url (map (fun ep => request ep key (prompt contractText))
                                     (firstn n endpoints)))).
  { intros n. rewrite map_map. cbn [req_url request].
    apply (NoDup_app_remove_r _ (map (fun ep => ep ++ "?key=" ++ key) (skipn n endpoints))).
    rewrite <- map_app, firstn_skipn. apply endpoint_urls_distinct. }
  destruct (client_outcomes contractText key net Hkey Hne)
    as [(earlier & e & net' & _ & Hcall & Hcalls)
       |(before & winner & later & errs & net1 & raw & net2 & Hsplit & _ & _ & Hcall & Hcalls)].
  - exists 3%nat. rewrite Hcall. cbn [fst snd]. repeat split; trivial; lia.
  - assert (Hlen : (List.length before + 1 + List.length later = 3)%nat).
    { change 3%nat with (List.length endpoints). rewrite Hsplit, List.length_app. cbn. lia. }
    exists (List.length before + 1)%nat. rewrite Hcall. cbn [fst snd].
    assert (Hprefix : firstn (List.length before + 1) endpoints = (before ++ [winner])%list).
    { rewrite Hsplit, firstn_app_2. reflexivity. }
    repeat split; try lia.
    + now rewrite Hprefix.
    + apply Hurls.
    + intros t Ht. discriminate Ht.
Qed.

(** X11: an ok response whose body is an object without candidates, with
    an empty list of candidates, or whose first candidate is an object
    without content, costs the turn: the error recorded is the one about the
    response format and the loop goes on. *)
Theorem missing_candidates_is_format_error p key ep net response fs w :
  fetch (world net) (request ep key p) = (Resolves response, w) ->
  ok response = true ->
  json response = Ok (JObj fs) ->
  truthy (lookup "candidates" fs) = false \/
  lookup "candidates" fs = JArr [] \/
  (exists c rest, lookup "candidates" fs = JArr (JObj c :: rest) /\
                  truthy (lookup "content" c) = false) ->
  attempt' p key ep net =
    (Continue (Error "Invalid response format from Gemini API"),
     {| world := w; calls := calls net ++ [request ep key p] |}).
Proof.
  intros Hfetch Hok Hjson Hshape.
  unfold attempt, try_body, do_fetch. rewrite Hfetch, Hok. cbn [negb].
  unfold read_response. rewrite Hjson. see_result. cbn [get_prop]. see_result.
  destruct Hshape as [Hfalsy | [Hempty | (c & rest & Hfirst & Hcontent)]].
  - now rewrite Hfalsy.
  - now rewrite Hempty.
  - rewrite Hfirst. cbn. now rewrite Hcontent.
Qed.

(** X12: when the first endpoint that answers gives an answer the
    conversion cannot take, [analyzeContract] throws the TypeError of the
    conversion; the endpoints after that one are not asked. *)
Theorem unusable_answer_is_not_retried text key before winner later errs net net1 raw net2 :
  GEMINI_API_KEY = Some key -> key <> EmptyString ->
  endpoints = (before ++ winner :: later)%list ->
  failures' (prompt (truncatedText text)) key before net = Some (errs, net1) ->
  attempt' (prompt (truncatedText text)) key winner net1 = (Return raw, net2) ->
  accepted raw = false ->
  analyzeContract' text net = (throwTypeError, net2) /\
  calls net2 =
    (calls net ++ map (fun ep => request ep key (prompt (truncatedText text)))
                      (before ++ [winner]))%list.
Proof.
  intros Hkey Hne Hsplit Hbefore Hwin Hraw. split.
  - unfold analyzeContract.
    rewrite (callGeminiAPI_with_key _ _ _ _ _ _ _ Hkey Hne), Hsplit,
      (try_endpoints_first_success _ _ _ _ _ _ _ _ _ _ _ _ _ _ Hbefore Hwin).
    cbn [rbind Ok]. now rewrite (rejected_throws raw Hraw).
  - rewrite (attempt_calls _ _ _ _ _ _ _ _ _ Hwin).
    destruct (failures_calls _ _ _ _ _ _ _ _ _ Hbefore) as [-> _].
    now rewrite map_app, app_assoc.
Qed.

(** X13: with a key, [analyzeContract] ends in one of three ways.  It
    returns the conversion of the answer the client returned, which is an
    accepted one; or it throws the error of the last endpoint, all three
    having failed; or it throws a TypeError, the client having returned an
    answer that is not accepted.  The network is left as the client left
    it. *)
Theorem analyzeContract_outcomes text key net :
  GEMINI_API_KEY = Some key -> key <> EmptyString ->
  (forall r net',
      analyzeContract' text net = (Ok r, net') ->
      exists raw,
        callGeminiAPI' (truncatedText text) net = (Ok raw, net') /\
        accepted raw = true /\
        toAnalysisResult raw = Ok r) /\
  (forall t net',
      analyzeContract' text net = (Throw t, net') ->
      (exists earlier e,
          failures' (prompt (truncatedText text)) key endpoints net =
            Some ((earlier ++ [e])%list, net') /\
          t = ThrowErr e) \/
      (exists raw,
          callGeminiAPI' (truncatedText text) net = (Ok raw, net') /\
          accepted raw = false /\
          t = ThrowErr TypeError)).
Proof.
  intros Hkey Hne. unfold analyzeContract.
  destruct (client_outcomes (truncatedText text) key net Hkey Hne)
    as [(earlier & e & net1 & Hall & Hcall & _)
       |(before & winner & later & errs & net1 & raw & net2 & _ & _ & _ & Hcall & _)];
    rewrite Hcall; cbn [rbind Ok Throw]; split.
  - intros r net' H. discriminate H.
  - intros t net' H. injection H as <- <-. left. now exists earlier, e.
  - intros r net' H. injection H as Hr <-. exists raw. repeat split; trivial.
    destruct (accepted raw) eqn:E; [reflexivity|].
    rewrite (rejected_throws _ E) in Hr. discriminate Hr.
  - intros t net' H. injection H as Ht <-. right. exists raw.
    destruct (accepted raw) eqn:E.
    + destruct (accepted_converts _ E) as [r Hr]. rewrite Hr in Ht. discriminate Ht.
    + rewrite (rejected_throws _ E) in Ht. unfold throwTypeError, Throw in Ht.
      injection Ht as <-. now repeat split.
Qed.

End HostFurther.

Lemma requests_bounded_witness :
  exists n,
    (1 <= n <= 3)%nat /\
    calls (snd (callGeminiAPI failover_fetch table_parse plain_stringify (Some "k")
                              "lease" fresh)) =
      map (fun ep => request ep "k" (prompt "lease")) (firstn n endpoints).
Proof.
  destruct (requests_bounded failover_fetch table_parse plain_stringify (Some "k")
              "lease" "k" fresh eq_refl) as (n & Hn & Hcalls & _);
    [discriminate|].
  exists n. split; [exact Hn | exact Hcalls].
Defined.

Lemma missing_candidates_is_format_error_witness :
  fst (attempt blocked_fetch table_parse plain_stringify "p" "k" "e" fresh)
    = Continue (Error "Invalid response format from Gemini API").
Proof.
  rewrite (missing_candidates_is_format_error blocked_fetch table_parse plain_stringify
             "p" "k" "e" fresh _ [("candidates", JArr [])] 1%nat eq_refl eq_refl eq_refl).
  - reflexivity.
  - right. left. reflexivity.
Defined.

Lemma unusable_answer_is_not_retried_witness :
  fst (analyzeContract (steady_fetch "{}") empty_object_parse plain_stringify (Some "k")
                       "lease" fresh) = throwTypeError /\
  List.length (calls (snd (analyzeContract (steady_fetch "{}") empty_object_parse
                                           plain_stringify (Some "k") "lease" fresh)))
    = 1%nat.
Proof.
  destruct (unusable_answer_is_not_retried (steady_fetch "{}") empty_object_parse
              plain_stringify (Some "k") "lease" "k"
              [] (nth 0 endpoints EmptyString)
              [nth 1 endpoints EmptyString; nth 2 endpoints EmptyString]
              [] fresh fresh (JObj [])
              (mkNet 1%nat [request (nth 0 endpoints EmptyString) "k"
                                    (prompt (truncatedText "lease"))])
              eq_refl) as [Hcall Hcalls];
    [discriminate | reflexivity | reflexivity | vm_compute; reflexivity | reflexivity |].
  rewrite Hcall. split; reflexivity.
Defined.

Lemma analyzeContract_outcomes_witness :
  exists raw,
    callGeminiAPI failover_fetch table_parse plain_stringify (Some "k")
                  (truncatedText "lease") fresh
      = (Ok raw, snd (analyzeContract failover_fetch table_parse plain_stringify
                                      (Some "k") "lease" fresh)) /\
    accepted raw = true.
Proof.
  destruct (analyzeContract_outcomes failover_fetch table_parse plain_stringify
              (Some "k") "lease" "k" fresh eq_refl) as [Hok _];
    [discriminate|].
  destruct (Hok {| summary := JStr "A one year lease.";
                   keyDetails := JArr [];
                   flaggedClauses := [];
                   overallRiskScore := JNum 40;
                   recommendations := JArr [JStr "r1"] |}
                (snd (analyzeContract failover_fetch table_parse plain_stringify
                                      (Some "k") "lease" fresh)))
    as (raw & Hcall & Hacc & _);
    [vm_compute; reflexivity|].
  exists raw. now split.
Defined.

(** * The claims on truncation, extraction and exhaustion *)

(** ** [trim] *)

Lemma trimStart_spec (s : string) :
  exists lead,
    s = lead ++ trimStart s /\ all_space lead = true /\
    starts_with_space (trimStart s) = false.
Proof.
  induction s as [|c s (lead & Hs & Hlead & Hstart)]; cbn [trimStart].
  - now exists EmptyString.
  - destruct (is_space c) eqn:Ec.
    + exists (String c lead). cbn. rewrite Ec, Hlead. now rewrite <- Hs.
    + exists EmptyString. cbn. now rewrite Ec.
Qed.

Lemma trimEnd_spec (s : string) :
  exists trail,
    s = trimEnd s ++ trail /\ all_space trail = true /\
    ends_with_space (trimEnd s) = false /\
    (starts_with_space s = false -> starts_with_space (trimEnd s) = false).
Proof.
  induction s as [|c s (trail & Hs & Htrail & Hend & _)]; cbn [trimEnd].
  - now exists EmptyString.
  - destruct (trimEnd s) as [|d kept] eqn:Ekept.
    + cbn [append] in Hs. subst trail.
      destruct (is_space c) eqn:Ec.
      * exists (String c s). cbn. rewrite Ec, Htrail. now repeat split.
      * exists s. cbn. now rewrite Ec.
    + exists trail. cbn [append] in *. rewrite <- Hs.
      cbn [ends_with_space starts_with_space] in *. now repeat split.
Qed.

Lemma trim_spec (s : string) :
  (exists lead trail,
      s = lead ++ trim s ++ trail /\ all_space lead = true /\ all_space trail = true) /\
  starts_with_space (trim s) = false /\
  ends_with_space (trim s) = false.
Proof.
  unfold trim.
  destruct (trimStart_spec s) as (lead & Hs & Hlead & Hstart).
  destruct (trimEnd_spec (trimStart s)) as (trail & Ht & Htrail & Hend & Hkeep).
  split; [|split; [exact (Hkeep Hstart) | exact Hend]].
  exists lead, trail. now rewrite <- Ht.
Qed.

(** ** What a failing turn records *)

Lemma get_prop_throws (v : JsValue) (k : string) (t : Thrown) :
  get_prop v k = inl t -> t = ThrowErr TypeError.
Proof. destruct v; cbn; intros H; (discriminate H || now injection H). Qed.

Lemma get_index0_throws (v : JsValue) (t : Thrown) :
  get_index0 v = inl t -> t = ThrowErr TypeError.
Proof.
  destruct v as [| | b | n | s | items | fs]; cbn; try destruct s; cbn; intros H;
    (discriminate H || now injection H).
Qed.

Lemma call_trim_throws (v : JsValue) (t : Thrown) :
  call_trim v = inl t -> t = ThrowErr TypeError.
Proof. destruct v; cbn; intros H; (discriminate H || now injection H). Qed.

Section HostRevised.

Context {World : Type}.
Variable fetch : World -> Request -> FetchOutcome * World.
Variable JSON_parse : string -> option JsValue.
Variable JSON_stringify : JsValue -> string.
Variable GEMINI_API_KEY : option string.

Local Abbreviation read_response' := (read_response JSON_parse).
Local Abbreviation attempt' := (attempt fetch JSON_parse JSON_stringify).
Local Abbreviation failures' := (failures fetch JSON_parse JSON_stringify).
Local Abbreviation callGeminiAPI' :=
  (callGeminiAPI fetch JSON_parse JSON_stringify GEMINI_API_KEY).
Local Abbreviation analyzeContract' :=
  (analyzeContract fetch JSON_parse JSON_stringify GEMINI_API_KEY).

Implicit Types (net : Net World) (p key ep : string) (eps : list string).

(** What reading an answer whose body arrived can end in, when it does not
    return. *)
Lemma read_response_failure response data :
  json response = Ok data ->
  (forall e, read_response' response = Ok (Continue e) ->
             e = Error "Invalid response format from Gemini API") /\
  (forall t, read_response' response = Throw t ->
             t = ThrowErr TypeError \/
             (t = ThrowErr SyntaxError /\
              exists text, JSON_parse (jsonText (trim text)) = None)).
Proof.
  intros Hjson. unfold read_response. rewrite Hjson. see_result.
  assert (Hformat : forall e : JsError,
             @inr Thrown Turn (Continue (Error "Invalid response format from Gemini API"))
               = inr (Continue e) ->
             e = Error "Invalid response format from Gemini API").
  { intros e H. now injection H. }
  assert (Hthrow : forall (t t' : Thrown), t' = ThrowErr TypeError ->
             @inl Thrown Turn t' = inl t ->
             t = ThrowErr TypeError \/
             (t = ThrowErr SyntaxError /\
              exists text, JSON_parse (jsonText (trim text)) = None)).
  { intros t t' -> H. left. now injection H. }
  destruct (get_prop data "candidates") as [t0 | candidates] eqn:E1;
    [split; [discriminate | intros t; apply Hthrow, (get_prop_throws _ _ _ E1)]|].
  destruct (negb (truthy candidates)); [split; [exact Hformat | discriminate]|].
  destruct (get_index0 candidates) as [t0 | first] eqn:E2;
    [split; [discriminate | intros t; apply Hthrow, (get_index0_throws _ _ E2)]|].
  destruct (negb (truthy first)); [split; [exact Hformat | discriminate]|].
  destruct (get_prop first "content") as [t0 | content] eqn:E3;
    [split; [discriminate | intros t; apply Hthrow, (get_prop_throws _ _ _ E3)]|].
  destruct (negb (truthy content)); [split; [exact Hformat | discriminate]|].
  destruct (get_prop content "parts") as [t0 | parts] eqn:E4;
    [split; [discriminate | intros t; apply Hthrow, (get_prop_throws _ _ _ E4)]|].
  destruct (get_index0 parts) as [t0 | part] eqn:E5;
    [split; [discriminate | intros t; apply Hthrow, (get_index0_throws _ _ E5)]|].
  destruct (get_prop part "text") as [t0 | text] eqn:E6;
    [split; [discriminate | intros t; apply Hthrow, (get_prop_throws _ _ _ E6)]|].
  destruct (call_trim text) as [t0 | responseText] eqn:E7;
    [split; [discriminate | intros t; apply Hthrow, (call_trim_throws _ _ E7)]|].
  destruct text as [| | b | n | s | items | fs]; try discriminate E7.
  cbn [call_trim] in E7. unfold Ok in E7. injection E7 as <-.
  destruct (JSON_parse (jsonText (trim s))) as [v|] eqn:E8.
  - split; intros x H; discriminate H.
  - split; [intros e H; discriminate H|].
    intros t H. injection H as <-. right. split; [reflexivity | now exists s].
Qed.

(** The error that a failing turn records, read off what the host did. *)
Lemma attempt_failure p key ep net e net' :
  attempt' p key ep net = (Continue e, net') ->
  match fst (fetch (world net) (request ep key p)) with
  | Rejects (ThrowErr err) => e = err
  | Rejects (ThrowVal rendering) => e = Error rendering
  | Resolves response =>
      if ok response then
        match json response with
        | inl (ThrowErr err) => e = err
        | inl (ThrowVal rendering) => e = Error rendering
        | inr data =>
            e = Error "Invalid response format from Gemini API" \/
            e = TypeError \/
            (e = SyntaxError /\ exists text, JSON_parse (jsonText (trim text)) = None)
        end
      else
        e = Error ("Gemini API error: " ++ show_number (status response) ++ " "
                   ++ statusText response ++ ". "
                   ++ JSON_stringify match json response with
                                     | inr errorData => errorData
                                     | inl _ => JObj []
                                     end)
  end.
Proof.
  unfold attempt, try_body, do_fetch.
  destruct (fetch (world net) (request ep key p)) as [out w]. cbn [fst].
  destruct out as [response | reason].
  - destruct (ok response); cbn [negb].
    + destruct (json response) as [thrown | data] eqn:Ejson.
      * unfold read_response. rewrite Ejson. cbn [rbind].
        intros H; injection H as <- _. now destruct thrown as [[]|].
      * destruct (read_response_failure response data Ejson) as [Hcont Hthrow].
        destruct (read_response' response) as [t | [v | e']].
        -- intros H; injection H as <- _.
           destruct (Hthrow t eq_refl) as [-> | [-> Hparse]]; cbn; auto.
        -- intros H; discriminate H.
        -- intros H; injection H as <- _. left. now apply Hcont.
    + intros H; injection H as <- _. reflexivity.
  - intros H; injection H as <- _. now destruct reason as [[]|].
Qed.

Lemma failures_snoc p key eps ep net errs net' :
  failures' p key (eps ++ [ep]) net = Some (errs, net') ->
  exists earlier e net1,
    errs = (earlier ++ [e])%list /\
    failures' p key eps net = Some (earlier, net1) /\
    attempt' p key ep net1 = (Continue e, net').
Proof.
  revert net errs; induction eps as [|ep0 eps IH]; intros net errs;
    cbn [app failures].
  - destruct (attempt' p key ep net) as [[r | e] net1] eqn:E0; [discriminate|].
    intros H; injection H as <- <-. now exists [], e, net.
  - destruct (attempt' p key ep0 net) as [[r | e0] net0]; [discriminate|].
    destruct (failures' p key (eps ++ [ep]) net0) as [[errs' net2]|] eqn:E;
      [|discriminate].
    intros H; injection H as <- <-.
    destruct (IH _ _ E) as (earlier & e & net1 & -> & Hfirst & Hlast).
    exists (e0 :: earlier), e, net1. rewrite Hfirst. now repeat split.
Qed.

(** C7, as the code has it: when the turns over all the endpoints fail,
    the client throws once, after the turn of the third endpoint, and what
    it throws is the error which that turn recorded, as it is: there is no
    outcome of exhaustion that wraps it.  Every endpoint has been asked by
    then, and the client with a key throws in no other way.  What a failing
    turn records is what the host gave it: the error with which [fetch] or
    [response.json()] rejected (a value that is no Error, as an Error of
    its rendering), the error made of the status of a response that is not
    ok, the error of the response format, a TypeError met on the way to the
    text, or the SyntaxError of [JSON.parse]. *)
Theorem exhaustion_throws_last_error contractText key net :
  GEMINI_API_KEY = Some key -> key <> EmptyString ->
  (forall errs net',
      failures' (prompt contractText) key endpoints net = Some (errs, net') ->
      exists earlier last_error net2,
        errs = (earlier ++ [last_error])%list /\
        failures' (prompt contractText) key (firstn 2 endpoints) net =
          Some (earlier, net2) /\
        attempt' (prompt contractText) key (nth 2 endpoints EmptyString) net2 =
          (Continue last_error, net') /\
        callGeminiAPI' contractText net = (Throw (ThrowErr last_error), net') /\
        calls net' =
          (calls net ++ map (fun ep => request ep key (prompt contractText))
                            endpoints)%list) /\
  (forall t net',
      callGeminiAPI' contractText net = (Throw t, net') ->
      exists earlier last_error,
        failures' (prompt contractText) key endpoints net =
          Some ((earlier ++ [last_error])%list, net') /\
        t = ThrowErr last_error) /\
  (forall p ep net1 e net2,
      attempt' p key ep net1 = (Continue e, net2) ->
      match fst (fetch (world net1) (request ep key p)) with
      | Rejects (ThrowErr err) => e = err
      | Rejects (ThrowVal rendering) => e = Error rendering
      | Resolves response =>
          if ok response then
            match json response with
            | inl (ThrowErr err) => e = err
            | inl (ThrowVal rendering) => e = Error rendering
            | inr data =>
                e = Error "Invalid response format from Gemini API" \/
                e = TypeError \/
                (e = SyntaxError /\
                 exists text, JSON_parse (jsonText (trim text)) = None)
            end
          else
            e = Error ("Gemini API error: " ++ show_number (status response) ++ " "
                       ++ statusText response ++ ". "
                       ++ JSON_stringify match json response with
                                         | inr errorData => errorData
                                         | inl _ => JObj []
                                         end)
      end).
Proof.
  intros Hkey Hne. split; [|split].
  - intros errs net' Hall.
    destruct (failures_snoc _ _ (firstn 2 endpoints) (nth 2 endpoints EmptyString)
                _ _ _ Hall) as (earlier & e & net2 & -> & Hfirst & Hlast).
    exists earlier, e, net2. repeat split; trivial.
    + rewrite (callGeminiAPI_with_key _ _ _ _ _ _ _ Hkey Hne),
        (try_endpoints_exhausted _ _ _ _ _ _ None _ _ _ Hall).
      unfold thrown_after. now rewrite last_last.
    + now destruct (failures_calls _ _ _ _ _ _ _ _ _ Hall) as [-> _].
  - intros t net' Hcall.
    destruct (client_outcomes fetch JSON_parse JSON_stringify GEMINI_API_KEY
                contractText key net Hkey Hne)
      as [(earlier & e & net1 & Hall & Hthrow & _)
         |(before & winner & later & errs & net1 & raw & net2 & _ & _ & _ & Hok & _)].
    + rewrite Hthrow in Hcall. injection Hcall as <- <-. now exists earlier, e.
    + rewrite Hok in Hcall. discriminate Hcall.
  - intros p ep net1 e net2. apply attempt_failure.
Qed.

(** C5: a text of at most 50000 characters goes to the client as it is;
    of a longer text the client gets the first 50000 characters followed
    by the marker, 50000 plus the length of the marker in all.  The client
    is called on that text and on nothing else: what [analyzeContract]
    yields is the conversion of what the client yields on it, and with a
    key at least one request goes out, each with the instructions, that
    text and the closing instruction as its prompt. *)
Theorem truncation_policy text :
  (js_length text <= maxLength -> truncatedText text = text) /\
  (js_length text > maxLength ->
     exists kept rest,
       text = kept ++ rest /\
       js_length kept = maxLength /\
       truncatedText text = kept ++ truncation_marker /\
       js_length (truncatedText text) = maxLength + js_length truncation_marker) /\
  (forall net,
     analyzeContract' text net =
       (rbind (fst (callGeminiAPI' (truncatedText text) net)) toAnalysisResult,
        snd (callGeminiAPI' (truncatedText text) net))) /\
  (forall key net,
     GEMINI_API_KEY = Some key -> key <> EmptyString ->
     exists n,
       (1 <= n <= 3)%nat /\
       calls (snd (analyzeContract' text net)) =
         (calls net ++
          map (fun ep => request ep key (prompt_head ++ truncatedText text ++ prompt_tail))
              (firstn n endpoints))%list).
Proof.
  split; [apply truncatedText_short | split; [|split]].
  - intros Hlen.
    assert (Hkept : js_length (take (Z.to_nat maxLength) text) = maxLength).
    { unfold js_length in *. rewrite length_take; unfold maxLength in *; lia. }
    exists (take (Z.to_nat maxLength) text), (drop (Z.to_nat maxLength) text).
    rewrite take_app_drop, (truncatedText_long _ Hlen).
    repeat split; trivial.
    unfold js_length in *. rewrite length_app. lia.
  - intros net. unfold analyzeContract.
    now destruct (callGeminiAPI' (truncatedText text) net).
  - intros key net Hkey Hne. unfold analyzeContract.
    fold (prompt (truncatedText text)).
    destruct (client_outcomes fetch JSON_parse JSON_stringify GEMINI_API_KEY
                (truncatedText text) key net Hkey Hne)
      as [(earlier & e & net1 & _ & Hcall & Hcalls)
         |(before & winner & later & errs & net1 & raw & net2 & Hsplit & _ & _ & Hcall & Hcalls)];
      rewrite Hcall; cbn [snd].
    + exists 3%nat. split; [lia | exact Hcalls].
    + assert (Hlen : (List.length before + 1 + List.length later = 3)%nat).
      { change 3%nat with (List.length endpoints).
        rewrite Hsplit, List.length_app. cbn. lia. }
      exists (List.length before + 1)%nat. split; [lia|].
      rewrite Hcalls. do 2 f_equal. rewrite Hsplit, firstn_app_2. reflexivity.
Qed.

(** C6, as the code has it: with [responseText] the text of the answer
    without the white space at its two ends, [jsonText] is the part of
    [responseText] from its first opening brace to its last closing brace,
    whatever lies between them; when [responseText] has no part that starts
    with an opening brace and ends with a closing brace, [jsonText] is
    [responseText] itself.  The turn hands [jsonText] to [JSON.parse]: it
    returns the parsed value, and goes on to the next endpoint with the
    SyntaxError otherwise. *)
Theorem json_extraction text :
  let responseText := trim text in
  ((exists lead trail,
       text = lead ++ responseText ++ trail /\
       all_space lead = true /\ all_space trail = true) /\
   starts_with_space responseText = false /\
   ends_with_space responseText = false) /\
  ((exists before body after,
       responseText = before ++ String open_brace (body ++ String close_brace after) /\
       has_char open_brace before = false /\
       has_char close_brace after = false /\
       jsonText responseText = String open_brace (body ++ String close_brace EmptyString))
   \/
   ((forall before body after,
        responseText <> before ++ String open_brace (body ++ String close_brace after)) /\
    jsonText responseText = responseText)) /\
  (forall p key ep net code reason w,
      fetch (world net) (request ep key p) =
        (Resolves {| ok := true; status := code; statusText := reason;
                     json := Ok (envelope text) |}, w) ->
      fst (attempt' p key ep net) =
        match JSON_parse (jsonText responseText) with
        | Some result => Return result
        | None => Continue SyntaxError
        end).
Proof.
  intros responseText. split; [apply trim_spec | split].
  - unfold jsonText. destruct (match_braces responseText) as [m|] eqn:E.
    + left. destruct (match_braces_some _ _ E) as (before & body & after & H1 & H2 & H3 & H4).
      now exists before, body, after.
    + right. split; [now apply match_braces_none | reflexivity].
  - intros p key ep net code reason w Hfetch.
    unfold attempt, try_body, do_fetch. rewrite Hfetch.
    cbn -[jsonText trim]. fold responseText.
    now destruct (JSON_parse (jsonText responseText)).
Qed.

End HostRevised.

(** ** The three theorems at the sample hosts *)

Lemma exhaustion_throws_last_error_witness :
  fst (unreachable_fetch 2%nat (request (nth 2 endpoints EmptyString) "k" (prompt "lease")))
    = Rejects (ThrowErr TypeError) /\
  fst (callGeminiAPI unreachable_fetch table_parse plain_stringify (Some "k") "lease" fresh)
    = Throw (ThrowErr TypeError).
Proof.
  split; [reflexivity|].
  destruct (exhaustion_throws_last_error unreachable_fetch table_parse plain_stringify
              (Some "k") "lease" "k" fresh eq_refl) as (Hall & _ & Hturn);
    [discriminate|].
  destruct (Hall [Error "Gemini API error: 404 Not Found. {}";
                  Error "Invalid response format from Gemini API";
                  TypeError]
              (mkNet 3%nat (map (fun ep => request ep "k" (prompt "lease")) endpoints)))
    as (earlier & last_error & net2 & Herrs & Hfirst & Hlast & Hcall & _);
    [vm_compute; reflexivity|].
  vm_compute in Hfirst. injection Hfirst as <- <-.
  pose proof (Hturn _ _ _ _ _ Hlast) as Hseen. cbn in Hseen.
  rewrite Hcall, Hseen. reflexivity.
Defined.

(** C7 fails as stated: on the network where the third endpoint answers
    with a text that is not JSON, what the client throws is that turn's
    SyntaxError, not an outcome of exhaustion carrying it. *)
Lemma exhaustion_error_is_the_endpoint_error :
  exists t,
    fst (callGeminiAPI failing_fetch table_parse plain_stringify (Some "k") "lease" fresh)
      = Throw t /\
    t = ThrowErr SyntaxError /\
    is_ServiceUnavailable t = false.
Proof.
  eexists. split; [vm_compute; reflexivity | split; reflexivity].
Qed.

Lemma truncation_policy_witness :
  (js_length "lease" <= maxLength /\ truncatedText "lease" = "lease") /\
  (js_length long_text > maxLength /\
   js_length (truncatedText long_text) = maxLength + js_length truncation_marker) /\
  (exists n,
      (1 <= n <= 3)%nat /\
      calls (snd (analyzeContract failover_fetch table_parse plain_stringify (Some "k")
                                  long_text fresh)) =
        map (fun ep => request ep "k"
                         (prompt_head ++ truncatedText long_text ++ prompt_tail))
            (firstn n endpoints)).
Proof.
  assert (Hshort : js_length "lease" <= maxLength) by (vm_compute; discriminate).
  assert (Hlong : js_length long_text > maxLength) by (vm_compute; reflexivity).
  split; [|split]; try (split; [assumption|]).
  - exact (proj1 (truncation_policy failover_fetch table_parse plain_stringify None
                    "lease") Hshort).
  - destruct (truncation_policy failover_fetch table_parse plain_stringify None long_text)
      as (_ & Hcut & _).
    destruct (Hcut Hlong) as (kept & rest & _ & _ & _ & Hlen). exact Hlen.
  - destruct (truncation_policy failover_fetch table_parse plain_stringify (Some "k")
                long_text) as (_ & _ & _ & Hsent).
    destruct (Hsent "k" fresh eq_refl) as (n & Hn & Hcalls); [discriminate|].
    exists n. split; [exact Hn | exact Hcalls].
Defined.

Lemma json_extraction_witness :
  jsonText (trim wrapped_answer) = wrapped_object /\
  fst (attempt failover_fetch table_parse plain_stringify "p" "k" "e" (mkNet 1%nat []))
    = Return (answer (JNum 40) [JStr "r1"]) /\
  fst (attempt (steady_fetch padded_number) number_parse plain_stringify "p" "k" "e" fresh)
    = Return (JNum 42).
Proof.
  split; [vm_compute; reflexivity|]. split.
  - pose proof (json_extraction failover_fetch table_parse plain_stringify wrapped_answer)
      as H.
    cbv zeta in H. destruct H as (_ & _ & Hturn).
    rewrite (Hturn "p" "k" "e" (mkNet 1%nat []) 200 "OK" 2%nat eq_refl).
    vm_compute. reflexivity.
  - pose proof (json_extraction (steady_fetch padded_number) number_parse plain_stringify
                  padded_number) as H.
    cbv zeta in H. destruct H as (_ & _ & Hturn).
    rewrite (Hturn "p" "k" "e" fresh 200 "OK" 1%nat eq_refl).
    vm_compute. reflexivity.
Defined.

(** C6 fails as stated: of an answer with two objects the first
    brace-delimited object is the first of the two, which [JSON.parse]
    accepts; [jsonText] is the whole span from the first opening brace to
    the last closing brace, and the turn ends in the SyntaxError. *)
Lemma first_object_not_selected :
  spec_first_object (trim two_objects) = Some first_of_two /\
  first_object_parse first_of_two = Some (JObj [("a", JNum 1)]) /\
  jsonText (trim two_objects) = two_objects /\
  jsonText (trim two_objects) <> first_of_two /\
  fst (attempt (steady_fetch two_objects) first_object_parse plain_stringify
               "p" "k" "e" fresh) = Continue SyntaxError.
Proof.
  repeat split; try (vm_compute; reflexivity).
  vm_compute. discriminate.
Qed.
